(** * pvrcnn/detector/backbone.py: the sparse 3D backbone of PV-RCNN

    A shallow embedding of [backbone.py].  Tensors are lists (a tensor of
    shape (N, C) is a list of N rows), integer tensors hold [Z], and the
    framework calls the file makes ([torch.randint], [Tensor.split],
    [torch.stack], [searchsorted], the spconv layers) are written out with
    the errors they raise.  Float arithmetic, the search routine of
    torchsearchsorted and the numeric kernels of spconv are parameters of
    the development. *)

From Stdlib Require Import String QArith.
From Stdlib Require Import ZArith List Lia Bool Sorted.
Import ListNotations.
Open Scope Z_scope.

Set Implicit Arguments.
Set Warnings "-register-all".

(** ** Exceptions and the generator *)

(** The runtime errors the modelled calls can raise. *)
Inductive exn : Type :=
| EmptyRange      (* torch.randint(low, high, ...) with low >= high *)
| SplitSizes      (* Tensor.split: a negative size, or sizes not summing to dim 0 *)
| EmptyReduction  (* Tensor.max() of a tensor with no element *)
| StackSizes      (* torch.stack of an empty list or of tensors of unequal size *)
| ShapeMismatch   (* operands that do not broadcast *)
| IndexError      (* an index outside the dimension *)
| InvalidRange    (* torch.arange with a negative end *)
| TypeError       (* a module applied to an input it does not accept *)
| AttributeError. (* module.weight on a module without one *)

Inductive result (A : Type) : Type :=
| Ok (a : A)
| Err (e : exn).
Arguments Err {A} e.

(** The state of the random number generator: an arbitrary tape of raw
    draws and the position of the next one.  Quantifying over the tape
    quantifies over every outcome of the random calls. *)
Record generator : Type := { tape : N -> N; pos : N }.

Definition advance (n : N) (g : generator) : generator :=
  {| tape := tape g; pos := (pos g + n)%N |}.

(** Computations that may raise and may draw random numbers. *)
Definition M (A : Type) : Type := generator -> result (A * generator).

Definition ret {A} (a : A) : M A := fun g => Ok (a, g).

Definition bind {A B} (m : M A) (k : A -> M B) : M B :=
  fun g => match m g with
           | Ok (a, g') => k a g'
           | Err e => Err e
           end.

Definition raise {A} (e : exn) : M A := fun _ => Err e.

Definition lift {A} (r : result A) : M A :=
  fun g => match r with Ok a => Ok (a, g) | Err e => Err e end.

Declare Scope monad_scope.
Delimit Scope monad_scope with monad.
Notation "x <- m ;; k" := (bind m (fun x => k))
  (at level 61, m at next level, right associativity) : monad_scope.
Notation "' pat <- m ;; k" := (bind m (fun x => match x with pat => k end))
  (at level 61, pat pattern, m at next level, right associativity) : monad_scope.
Open Scope monad_scope.

(** A list comprehension whose body may raise or draw: elements are
    evaluated left to right. *)
Definition mapM {A B} (f : A -> M B) : list A -> M (list B) :=
  fix go (l : list A) : M (list B) :=
    match l with
    | [] => ret []
    | a :: l' => b <- f a ;; bs <- go l' ;; ret (b :: bs)
    end.

(** ** Tensor primitives *)

(** [Tensor.int()]: the cast to a 32-bit signed integer wraps around. *)
Definition to_int32 (z : Z) : Z := (z + 2 ^ 31) mod 2 ^ 32 - 2 ^ 31.

(** The integers 0, 1, ..., n-1. *)
Definition ids (n : Z) : list Z := map Z.of_nat (seq 0 (Z.to_nat n)).

(** [torch.arange(n)]; a negative end is an error. *)
Definition arange (n : Z) : result (list Z) :=
  if n <? 0 then Err InvalidRange else Ok (ids n).

(** [torch.randint(low, high, (n,))]: n draws in [low, high). *)
Definition randint (low high : Z) (n : Z) : M (list Z) :=
  fun g =>
    if high <=? low then Err EmptyRange
    else
      let draw (i : nat) :=
        low + Z.of_N (tape g (pos g + N.of_nat i)%N) mod (high - low) in
      Ok (map draw (seq 0 (Z.to_nat n)), advance (Z.to_N n) g).

(** [x[inds]] along dimension 0; a negative index counts from the end. *)
Definition index_rows {A} (x : list A) (inds : list Z) : result (list A) :=
  fold_right
    (fun i acc =>
       match acc with
       | Err e => Err e
       | Ok rows =>
           let j := if i <? 0 then i + Z.of_nat (length x) else i in
           if (0 <=? j) && (j <? Z.of_nat (length x)) then
             match nth_error x (Z.to_nat j) with
             | Some r => Ok (r :: rows)
             | None => Err IndexError
             end
           else Err IndexError
       end)
    (Ok []) inds.

(** Consecutive chunks of the given sizes. *)
Fixpoint chunks_of {A} (sizes : list nat) (x : list A) : list (list A) :=
  match sizes with
  | [] => []
  | n :: sizes' => firstn n x :: chunks_of sizes' (skipn n x)
  end.

Definition sum_Z (l : list Z) : Z := fold_right Z.add 0 l.

(** [x.split(sizes)] with a list of sizes: the sizes are non-negative and
    sum to the length of dimension 0. *)
Definition split {A} (x : list A) (sizes : list Z) : result (list (list A)) :=
  if forallb (fun s => 0 <=? s) sizes && (sum_Z sizes =? Z.of_nat (length x))
  then Ok (chunks_of (map Z.to_nat sizes) x)
  else Err SplitSizes.

(** [t.max()] of a one-dimensional integer tensor. *)
Definition tensor_max (l : list Z) : result Z :=
  match l with
  | [] => Err EmptyReduction
  | a :: l' => Ok (fold_left Z.max l' a)
  end.

(** [torch.stack(chunks)]: a non-empty list of tensors of one size. *)
Definition stack {A} (chunks : list (list A)) : result (list (list A)) :=
  match chunks with
  | [] => Err StackSizes
  | c :: rest =>
      if forallb (fun c' => Nat.eqb (length c') (length c)) rest
      then Ok chunks
      else Err StackSizes
  end.

(** [random_choice(x, n)], with the default [dim=0], the only one the
    function accepts. *)
Definition random_choice {A} (x : list A) (n : Z) : M (list A) :=
  inds <- randint 0 (Z.of_nat (length x)) n ;;
  lift (index_rows x inds).

(** The comprehension [[random_choice(c, n) for (c, n) in ...]] of
    [pad_batch]. *)
Definition draw_pads {A} (cps : list (list A * Z)) : M (list (list A)) :=
  mapM (fun '(c, n) => random_choice c n) cps.

(** The same comprehension for a body that may raise but does not draw. *)
Definition map_result {A B} (f : A -> result B) : list A -> result (list B) :=
  fix go (l : list A) : result (list B) :=
    match l with
    | [] => Ok []
    | a :: l' =>
        match f a with
        | Err e => Err e
        | Ok b => match go l' with
                  | Err e => Err e
                  | Ok bs => Ok (b :: bs)
                  end
        end
    end.

(** The number of entries of a sorted row that are smaller than [t]:
    the left insertion point that [searchsorted] documents. *)
Definition count_lt (a : list Z) (t : Z) : Z :=
  Z.of_nat (length (filter (fun y => y <? t) a)).

(** A search routine that meets the documented contract on every input:
    used to run the development on concrete data. *)
Definition searchsorted_left (a v : list Z) : list Z := map (count_lt a) v.

(** The number of rows of batch [i], and those rows, in their order. *)
Definition count_eq (batch_index : list Z) (i : Z) : Z :=
  Z.of_nat (count_occ Z.eq_dec batch_index i).

Definition batch_rows {A} (x : list A) (batch_index : list Z) (i : Z) : list A :=
  map fst (filter (fun p => snd p =? i) (combine x batch_index)).

(** ** Data *)

(** [spconv.SparseConvTensor]: paired feature and index arrays, the dense
    shape and the batch size.  A row of [indices] is (batch, z, y, x). *)
Record SparseConvTensor (F : Type) : Type := {
  features : list (list F);
  indices : list (list Z);
  spatial_shape : list Z;
  batch_size : Z
}.

(** A dense tensor of shape (N, K, C), with its shape. *)
Record Tensor3 (F : Type) : Type := {
  shape3 : nat * nat * nat;
  data3 : list (list (list F))
}.

(** The data of a tensor agree with its shape. *)
Definition wf3 {F} (t : Tensor3 F) : Prop :=
  let '(N, K, C) := shape3 t in
  length (data3 t) = N /\
  Forall (fun voxel => length voxel = K /\
                       Forall (fun point => length point = C) voxel) (data3 t).

(** [nn.Parameter]: storage of type [T] and the gradient flag. *)
Record Param (T : Type) : Type := { data : T; requires_grad : bool }.

(** An int or a tuple given for a kernel size, stride or padding. *)
Inductive size_arg : Type :=
| Int (n : Z)
| Sizes (l : list Z).

(** The keyword arguments the file passes to the convolutions. *)
Record kwargs : Type := {
  kw_padding : option size_arg;
  kw_bias : option bool;
  kw_indice_key : option string
}.

(** The attributes of a [spconv] convolution after construction. *)
Record ConvParams : Type := {
  in_channels : Z;
  out_channels : Z;
  kernel_size : list Z;
  stride : list Z;
  padding : list Z;
  dilation : list Z;
  indice_key : option string
}.

Record BatchNormParams : Type := {
  num_features : Z;
  eps : Q;
  momentum : Q
}.

(** [torch.nn.Module]: the module classes the file builds or tests for. *)
Inductive nn_Module (T : Type) : Type :=
| SubMConv3d (p : ConvParams) (weight : Param T) (bias : option (Param T))
| SparseConv3d (p : ConvParams) (weight : Param T) (bias : option (Param T))
| Conv2d (weight : Param T) (bias : option (Param T))
| BatchNorm1d (p : BatchNormParams) (weight : Param T) (bias : Param T)
| ReLU
| SparseSequential (children : list (nn_Module T)).
Arguments ReLU {T}.

(** The configuration object; it is read, never built, by the file. *)
Record Cfg (F : Type) : Type := {
  C_IN : Z;
  VOXEL_SIZE : list F;
  GRID_BOUNDS : list F;
  STRIDES : list F
}.

Record SparseCNN (F T : Type) : Type := {
  cfg : Cfg F;
  grid_shape : list Z;
  base_voxel_size : list F;
  voxel_offset : list F;
  block1 : nn_Module T;
  block2 : nn_Module T;
  block3 : nn_Module T;
  block4 : nn_Module T
}.

(** The kind and the channel widths of a layer of a block. *)
Inductive layer_sig : Type :=
| Subm (c_in c_out : Z)
| Strided (c_in c_out : Z) (stride : list Z)
| Other.

(** ** Module utilities of torch.nn *)

Section Modules.

Variable T : Type.

(** [module.modules()]: the module and its descendants, depth first. *)
Fixpoint modules (m : nn_Module T) : list (nn_Module T) :=
  m :: match m with
       | SparseSequential cs => flat_map modules cs
       | _ => []
       end.

(** [module.parameters()] *)
Fixpoint parameters (m : nn_Module T) : list (Param T) :=
  match m with
  | SubMConv3d _ w b | SparseConv3d _ w b | Conv2d w b =>
      w :: match b with Some b => [b] | None => [] end
  | BatchNorm1d _ w b => [w; b]
  | ReLU => []
  | SparseSequential cs => flat_map parameters cs
  end.

Definition isinstance_Conv2d (m : nn_Module T) : bool :=
  match m with Conv2d _ _ => true | _ => false end.

Definition isinstance_BatchNorm (m : nn_Module T) : bool :=
  match m with BatchNorm1d _ _ _ => true | _ => false end.

Definition is_conv (m : nn_Module T) : bool :=
  match m with
  | SubMConv3d _ _ _ | SparseConv3d _ _ _ | Conv2d _ _ => true
  | _ => false
  end.

(** [module.weight] *)
Definition get_weight (m : nn_Module T) : option (Param T) :=
  match m with
  | SubMConv3d _ w _ | SparseConv3d _ w _ | Conv2d w _ | BatchNorm1d _ w _ =>
      Some w
  | _ => None
  end.

(** [module.bias] when the attribute exists and is not None. *)
Definition get_bias (m : nn_Module T) : option (Param T) :=
  match m with
  | SubMConv3d _ _ b | SparseConv3d _ _ b | Conv2d _ b => b
  | BatchNorm1d _ _ b => Some b
  | _ => None
  end.

Definition set_weight (m : nn_Module T) (w : Param T) : nn_Module T :=
  match m with
  | SubMConv3d p _ b => SubMConv3d p w b
  | SparseConv3d p _ b => SparseConv3d p w b
  | Conv2d _ b => Conv2d w b
  | BatchNorm1d p _ b => BatchNorm1d p w b
  | _ => m
  end.

Definition set_bias (m : nn_Module T) (b : Param T) : nn_Module T :=
  match m with
  | SubMConv3d p w _ => SubMConv3d p w (Some b)
  | SparseConv3d p w _ => SparseConv3d p w (Some b)
  | Conv2d w _ => Conv2d w (Some b)
  | BatchNorm1d p w _ => BatchNorm1d p w b
  | _ => m
  end.

Definition with_data (p : Param T) (d : T) : Param T :=
  {| data := d; requires_grad := requires_grad p |}.

Definition with_requires_grad (p : Param T) (v : bool) : Param T :=
  {| data := data p; requires_grad := v |}.

(** What a layer of a block is: a submanifold or a strided convolution,
    followed by batch normalisation and ReLU. *)
Definition layer_signature (m : nn_Module T) : layer_sig :=
  match m with
  | SparseSequential [SubMConv3d p _ _; BatchNorm1d _ _ _; ReLU] =>
      Subm (in_channels p) (out_channels p)
  | SparseSequential [SparseConv3d p _ _; BatchNorm1d _ _ _; ReLU] =>
      Strided (in_channels p) (out_channels p) (stride p)
  | _ => Other
  end.

Definition block_signature (m : nn_Module T) : list layer_sig :=
  match m with
  | SparseSequential cs => map layer_signature cs
  | _ => []
  end.

(** The stride a module applies along (z, y, x): that of its strided
    convolutions, multiplied along a sequence. *)
Fixpoint total_stride (m : nn_Module T) : list Z :=
  match m with
  | SparseConv3d p _ _ => stride p
  | SparseSequential cs =>
      fold_left (fun acc c =>
                   map (fun '(a, b) => a * b) (combine acc (total_stride c)))
                cs [1; 1; 1]
  | _ => [1; 1; 1]
  end.

End Modules.

(** An int is repeated over the three dimensions, a tuple is kept. *)
Definition expand (a : size_arg) : list Z :=
  match a with
  | Int n => [n; n; n]
  | Sizes l => l
  end.

(** ** A concrete setting

    Integers stand for floats, the convolutions copy their input and
    [searchsorted_left] is the search routine: enough to run every function
    of the file on data. *)
Module Demo.

Definition fsum (l : list Z) : Z := sum_Z l.
Definition of_int (z : Z) : Z := z.
Definition relu (z : Z) : Z := Z.max 0 z.

Definition fresh (shape : list Z) : list Z := shape.
Definition constant_ (t : list Z) (v : Z) : list Z := map (fun _ => v) t.
Definition kaiming_normal_ (t : list Z) : M (list Z) :=
  inds <- randint 0 100 (Z.of_nat (length t)) ;; ret inds.

Definition conv_features (p : ConvParams) (w : Param (list Z))
           (b : option (Param (list Z))) (x : SparseConvTensor Z)
  : list (list Z) := features x.
Definition conv_indices (p : ConvParams) (x : SparseConvTensor Z)
  : list (list Z) := indices x.
Definition conv_shape (p : ConvParams) (shape : list Z) : list Z := shape.
Definition batchnorm_features (p : BatchNormParams) (w b : Param (list Z))
           (f : list (list Z)) : list (list Z) := f.

Definition cfg : Cfg Z :=
  {| C_IN := 4;
     VOXEL_SIZE := [5; 5; 10];
     GRID_BOUNDS := [0; -40; -3; 70; 40; 1];
     STRIDES := [1; 2; 4; 8] |}.

Definition grid : list Z := [41; 1600; 1280].

Definition gen : generator := {| tape := fun i => i; pos := 0 |}.

Definition feats : list (list Z) := [[1; 2; 3; 4]; [5; 6; 7; 8]; [9; 10; 11; 12]].

(** Two voxels of batch 0 and one of batch 1. *)
Definition coords : list (list Z) := [[0; 0; 1; 2]; [0; 1; 0; 0]; [1; 2; 3; 4]].

(** Three voxels, all of batch 0. *)
Definition coords0 : list (list Z) := [[0; 0; 1; 2]; [0; 1; 0; 0]; [0; 2; 3; 4]].

Definition volume (B : Z) : SparseConvTensor Z :=
  {| features := feats; indices := coords; spatial_shape := grid; batch_size := B |}.

(** Two voxels of two points with two channels. *)
Definition points : Tensor3 Z :=
  {| shape3 := (2, 2, 2)%nat;
     data3 := [[[2; 4]; [6; 8]]; [[3; 5]; [0; 0]]] |}.

End Demo.

(** ** The file's functions *)

Section Backbone.

(** [torchsearchsorted.searchsorted(a, v)] on single-row operands.  Its
    code is outside the repository: it is a parameter, constrained only
    by the shape of its result and, on a sorted row, by the result it
    documents (the left insertion point, as numpy.searchsorted). *)
Variable searchsorted : list Z -> list Z -> list Z.

Definition searchsorted_shape : Prop :=
  forall a v, length (searchsorted a v) = length v.

Definition searchsorted_contract : Prop :=
  forall a v, Sorted Z.le a -> searchsorted a v = map (count_lt a) v.

(** Float arithmetic is a parameter: the elements of a FloatTensor, the
    elementwise operations, the reduction kernel behind [Tensor.sum] and
    the conversion of an integer ([.float()], [.type_as]). *)
Variable F : Type.
Variables fadd fmul fdiv : F -> F -> F.
Variable fsum : list F -> F.
Variable of_int : Z -> F.
Variable relu : F -> F.

(** Parameter storage and the initialisers of [torch.nn.init] are
    parameters as well: [fresh shape] is what a constructor leaves in a
    new parameter of that shape. *)
Variable T : Type.
Variable fresh : list Z -> T.
Variable constant_ : T -> Z -> T.
Variable kaiming_normal_ : T -> M T.

(** The numeric kernels of spconv and of batch normalisation, and the
    output sites and output shape of a strided sparse convolution. *)
Variable SubMConv3d_features :
  ConvParams -> Param T -> option (Param T) -> SparseConvTensor F -> list (list F).
Variable SparseConv3d_features :
  ConvParams -> Param T -> option (Param T) -> SparseConvTensor F -> list (list F).
Variable SparseConv3d_indices : ConvParams -> SparseConvTensor F -> list (list Z).
Variable SparseConv3d_shape : ConvParams -> list Z -> list Z.
Variable BatchNorm1d_features :
  BatchNormParams -> Param T -> Param T -> list (list F) -> list (list F).

(** *** Constructors of the library modules *)

Definition new_param (shape : list Z) : Param T :=
  {| data := fresh shape; requires_grad := true |}.

(** [nn.BatchNorm1d(C, eps=..., momentum=...)], affine by default. *)
Definition BatchNorm1d_init (C : Z) (eps momentum : Q) : nn_Module T :=
  BatchNorm1d {| num_features := C; eps := eps; momentum := momentum |}
              (new_param [C]) (new_param [C]).

(** The attributes [spconv.SubMConv3d(C_in, C_out, *args, **kw)] and
    [spconv.SparseConv3d(...)] store: the positional arguments after the
    channel counts are kernel_size, stride, padding and dilation, in
    this order, and a keyword takes the place of its position. *)
Definition conv_params (C_in C_out : Z) (args : list size_arg) (kw : kwargs)
  : ConvParams :=
  {| in_channels := C_in;
     out_channels := C_out;
     kernel_size := expand (nth 0 args (Int 3));
     stride := expand (nth 1 args (Int 1));
     padding := expand match kw_padding kw with
                       | Some p => p
                       | None => nth 2 args (Int 0)
                       end;
     dilation := expand (nth 3 args (Int 1));
     indice_key := kw_indice_key kw |}.

Definition conv_weight (p : ConvParams) : Param T :=
  new_param (kernel_size p ++ [in_channels p; out_channels p]).

(** [bias=True] by default. *)
Definition conv_bias (C_out : Z) (kw : kwargs) : option (Param T) :=
  match kw_bias kw with
  | Some false => None
  | _ => Some (new_param [C_out])
  end.

Definition SubMConv3d_init (C_in C_out : Z) (args : list size_arg) (kw : kwargs)
  : nn_Module T :=
  let p := conv_params C_in C_out args kw in
  SubMConv3d p (conv_weight p) (conv_bias C_out kw).

Definition SparseConv3d_init (C_in C_out : Z) (args : list size_arg) (kw : kwargs)
  : nn_Module T :=
  let p := conv_params C_in C_out args kw in
  SparseConv3d p (conv_weight p) (conv_bias C_out kw).

(** *** backbone.py *)

(** The loop [for param in layer.parameters(): param.requires_grad = v]
    on a module without children. *)
Definition set_requires_grad (v : bool) (m : nn_Module T) : nn_Module T :=
  match m with
  | SubMConv3d p w b =>
      SubMConv3d p (with_requires_grad w v)
                 (option_map (fun b => with_requires_grad b v) b)
  | SparseConv3d p w b =>
      SparseConv3d p (with_requires_grad w v)
                   (option_map (fun b => with_requires_grad b v) b)
  | Conv2d w b =>
      Conv2d (with_requires_grad w v)
             (option_map (fun b => with_requires_grad b v) b)
  | BatchNorm1d p w b =>
      BatchNorm1d p (with_requires_grad w v) (with_requires_grad b v)
  | _ => m
  end.

(** [build_batchnorm] *)
Definition build_batchnorm (C_in : Z) : nn_Module T :=
  let layer := BatchNorm1d_init C_in (1 # 1000) (1 # 100) in
  set_requires_grad true layer.

(** [make_subm_layer]: the literal 3 is the kernel size, so that the first
    of [args] lands on the stride. *)
Definition make_subm_layer (C_in C_out : Z) (args : list size_arg) (kw : kwargs)
  : nn_Module T :=
  SparseSequential
    [ SubMConv3d_init C_in C_out (Int 3 :: args) kw;
      build_batchnorm C_out;
      ReLU ].

(** [make_sparse_conv_layer] *)
Definition make_sparse_conv_layer (C_in C_out : Z) (args : list size_arg)
           (kw : kwargs) : nn_Module T :=
  SparseSequential
    [ SparseConv3d_init C_in C_out args kw;
      build_batchnorm C_out;
      ReLU ].

(** A layer that [make_subm_layer] built. *)
Definition is_subm_layer (m : nn_Module T) : Prop :=
  exists C_in C_out args kw, m = make_subm_layer C_in C_out args kw.

(** Elementwise operation of two rows, with broadcasting of a row of
    one element. *)
Definition broadcast (op : F -> F -> F) (a b : list F) : result (list F) :=
  if Nat.eqb (length a) (length b)
  then Ok (map (fun '(u, v) => op u v) (combine a b))
  else match a, b with
       | [u], _ => Ok (map (op u) b)
       | _, [v] => Ok (map (fun u => op u v) a)
       | _, _ => Err ShapeMismatch
       end.

(** The same on two tensors of two dimensions. *)
Definition broadcast_rows (op : F -> F -> F) (a b : list (list F))
  : result (list (list F)) :=
  if Nat.eqb (length a) (length b)
  then map_result (fun '(r, s) => broadcast op r s) (combine a b)
  else match a, b with
       | [r], _ => map_result (fun s => broadcast op r s) b
       | _, [s] => map_result (fun r => broadcast op r s) a
       | _, _ => Err ShapeMismatch
       end.

(** [feature.sum(1)] of a tensor of shape (N, K, C). *)
Definition sum_dim1 (feature : Tensor3 F) : list (list F) :=
  let '(_, _, C) := shape3 feature in
  map (fun voxel =>
         map (fun c => fsum (map (fun point => nth c point (of_int 0)) voxel))
             (seq 0 C))
      (data3 feature).

(** [VoxelFeatureExtractor.forward] *)
Definition VoxelFeatureExtractor_forward (feature : Tensor3 F) (occupancy : list Z)
  : result (list (list F)) :=
  let denominator := map (fun o => [of_int o]) occupancy in
  broadcast_rows fdiv (sum_dim1 feature) denominator.

(** The keywords of the two kinds of call in [__init__]. *)
Definition subm (key : string) : kwargs :=
  {| kw_padding := None; kw_bias := Some false; kw_indice_key := Some key |}.

Definition strided (pad : option size_arg) : kwargs :=
  {| kw_padding := pad; kw_bias := Some false; kw_indice_key := None |}.

(** [SparseCNN.__init__] *)
Definition SparseCNN_init (grid_shape : list Z) (cfg : Cfg F) : SparseCNN F T :=
  {| cfg := cfg;
     grid_shape := grid_shape;
     base_voxel_size := VOXEL_SIZE cfg;
     voxel_offset := firstn 3 (GRID_BOUNDS cfg);
     block1 := SparseSequential
       [ make_subm_layer (C_IN cfg) 16 [Int 3] (subm "subm0");
         make_subm_layer 16 16 [Int 3] (subm "subm0");
         make_sparse_conv_layer 16 32 [Int 3; Int 2] (strided (Some (Int 1))) ];
     block2 := SparseSequential
       [ make_subm_layer 32 32 [Int 3] (subm "subm1");
         make_subm_layer 32 32 [Int 3] (subm "subm1");
         make_sparse_conv_layer 32 64 [Int 3; Int 2] (strided (Some (Int 1))) ];
     block3 := SparseSequential
       [ make_subm_layer 64 64 [Int 3] (subm "subm2");
         make_subm_layer 64 64 [Int 3] (subm "subm2");
         make_subm_layer 64 64 [Int 3] (subm "subm2");
         make_sparse_conv_layer 64 64 [Int 3; Int 2]
                                (strided (Some (Sizes [0; 1; 1]))) ];
     block4 := SparseSequential
       [ make_subm_layer 64 64 [Int 3] (subm "subm3");
         make_subm_layer 64 64 [Int 3] (subm "subm3");
         make_subm_layer 64 64 [Int 3] (subm "subm3");
         make_sparse_conv_layer 64 64 [Sizes [3; 1; 1]; Sizes [2; 1; 1]]
                                (strided None) ] |}.

(** The modules [self.modules()] visits below the network itself. *)
Definition SparseCNN_modules (self : SparseCNN F T) : list (nn_Module T) :=
  flat_map (@modules T) [block1 self; block2 self; block3 self; block4 self].

(** [SparseCNN.maybe_bias_init] *)
Definition maybe_bias_init (module : nn_Module T) (val : Z) : nn_Module T :=
  match get_bias module with
  | Some b => set_bias module (with_data b (constant_ (data b) val))
  | None => module
  end.

(** [SparseCNN.kaiming_init] *)
Definition kaiming_init (module : nn_Module T) : M (nn_Module T) :=
  match get_weight module with
  | None => raise AttributeError
  | Some w =>
      d <- kaiming_normal_ (data w) ;;
      ret (maybe_bias_init (set_weight module (with_data w d)) 0)
  end.

(** [SparseCNN.batchnorm_init] *)
Definition batchnorm_init (module : nn_Module T) : M (nn_Module T) :=
  match get_weight module with
  | None => raise AttributeError
  | Some w =>
      ret (maybe_bias_init
             (set_weight module (with_data w (constant_ (data w) 1))) 0)
  end.

(** The body of the loop of [init_weights] on one module. *)
Definition init_module (m : nn_Module T) : M (nn_Module T) :=
  if isinstance_Conv2d m then kaiming_init m
  else if isinstance_BatchNorm m then batchnorm_init m
  else ret m.

(** The loop over [modules()]: a container is visited before its
    children and is neither a Conv2d nor a batch normalisation. *)
Fixpoint init_tree (m : nn_Module T) : M (nn_Module T) :=
  match m with
  | SparseSequential cs =>
      cs' <- mapM init_tree cs ;;
      ret (SparseSequential cs')
  | _ => init_module m
  end.

(** [SparseCNN.init_weights] *)
Definition init_weights (self : SparseCNN F T) : M (SparseCNN F T) :=
  b1 <- init_tree (block1 self) ;;
  b2 <- init_tree (block2 self) ;;
  b3 <- init_tree (block3 self) ;;
  b4 <- init_tree (block4 self) ;;
  ret {| cfg := cfg self;
         grid_shape := grid_shape self;
         base_voxel_size := base_voxel_size self;
         voxel_offset := voxel_offset self;
         block1 := b1; block2 := b2; block3 := b3; block4 := b4 |}.

(** What [init_weights] may do to a module: reset a batch normalisation
    to weight 1 and bias 0, keep the children count of a container, and
    leave any other module as it is. *)
Definition init_effect (m m' : nn_Module T) : Prop :=
  match m, m' with
  | BatchNorm1d p w b, BatchNorm1d p' w' b' =>
      p' = p /\
      w' = with_data w (constant_ (data w) 1) /\
      b' = with_data b (constant_ (data b) 0)
  | BatchNorm1d _ _ _, _ => False
  | SparseSequential cs, SparseSequential cs' => length cs' = length cs
  | SparseSequential _, _ => False
  | _, _ => m' = m
  end.

(** [SparseCNN.compute_pad_amounts] *)
Definition compute_pad_amounts (batch_index : list Z) (batch_size : Z)
  : result (list Z * list Z) :=
  match arange (batch_size + 1) with
  | Err e => Err e
  | Ok helper_index =>
      let helper_index := map to_int32 helper_index in
      let batch_index := map to_int32 batch_index in
      let start_index := searchsorted batch_index helper_index in
      let batch_count :=
        map (fun '(hi, lo) => hi - lo)
            (combine (tl start_index) (removelast start_index)) in
      match tensor_max batch_count with
      | Err e => Err e
      | Ok m => Ok (batch_count, map (fun c => m - c) batch_count)
      end
  end.

(** [SparseCNN.pad_batch] *)
Definition pad_batch {A} (x : list A) (batch_index : list Z) (batch_size : Z)
  : M (list (list A)) :=
  if batch_size =? 1 then ret [x]
  else
    '(batch_count, pad) <- lift (compute_pad_amounts batch_index batch_size) ;;
    chunks <- lift (split x batch_count) ;;
    pad_values <- draw_pads (combine chunks pad) ;;
    let chunks := map (fun '(c, p) => c ++ p) (combine chunks pad_values) in
    lift (stack chunks).

(** The chunks [pad_batch] cuts are the batches: chunk [k] of the batch
    index holds [k] and nothing else. *)
Definition chunks_are_batches (batch_index : list Z) (batch_size : Z) : Prop :=
  exists batch_count pad chunks,
    compute_pad_amounts batch_index batch_size = Ok (batch_count, pad) /\
    split batch_index batch_count = Ok chunks /\
    forall k c, nth_error chunks k = Some c -> Forall (fun y => y = Z.of_nat k) c.

(** [index[..., -1]] *)
Definition last_column (row : list Z) : result Z :=
  match rev row with
  | [] => Err IndexError
  | z :: _ => Ok z
  end.

(** The metric coordinates the specification gives the voxel of index
    row (batch, z, y, x): component [axis] of the reversed row, scaled and
    shifted. *)
Definition metric (voxel_size offset : list F) (stride : F) (row : list Z)
  : list F :=
  map (fun axis : nat =>
         fadd (fmul (of_int (nth axis (rev row) 0))
                    (fmul (nth axis voxel_size (of_int 0)) stride))
              (nth axis offset (of_int 0)))
      [0; 1; 2]%nat.

(** [SparseCNN.to_global] *)
Definition to_global (self : SparseCNN F T) (stride : F)
           (volume : SparseConvTensor F)
  : M (list (list (list F)) * list (list (list F))) :=
  let index := map (@rev Z) (indices volume) in
  let voxel_size := map (fun s => fmul s stride) (base_voxel_size self) in
  xyz <- lift (map_result
                 (fun row => broadcast fmul (map of_int (firstn 3 row)) voxel_size)
                 index) ;;
  xyz <- lift (map_result (fun row => broadcast fadd row (voxel_offset self)) xyz) ;;
  batch_index <- lift (map_result last_column index) ;;
  xyz <- pad_batch xyz batch_index (batch_size volume) ;;
  feature <- pad_batch (features volume) batch_index (batch_size volume) ;;
  ret (xyz, feature).

(** [input.features = f] *)
Definition with_features (x : SparseConvTensor F) (f : list (list F))
  : SparseConvTensor F :=
  {| features := f;
     indices := indices x;
     spatial_shape := spatial_shape x;
     batch_size := batch_size x |}.

(** Modelled from the spec: the forward pass of the spconv modules, whose
    code is outside the repository.  A submanifold convolution
    "preserves the input's active-site pattern in its output"; a strided
    sparse convolution computes new sites and a new shape; a
    [SparseSequential] applies its children in order, the dense layers
    (batch normalisation, ReLU) to the feature array only. *)
Fixpoint Module_forward (m : nn_Module T) (input : SparseConvTensor F)
  : result (SparseConvTensor F) :=
  match m with
  | SubMConv3d p w b =>
      Ok (with_features input (SubMConv3d_features p w b input))
  | SparseConv3d p w b =>
      Ok {| features := SparseConv3d_features p w b input;
            indices := SparseConv3d_indices p input;
            spatial_shape := SparseConv3d_shape p (spatial_shape input);
            batch_size := batch_size input |}
  | BatchNorm1d p w b =>
      Ok (with_features input (BatchNorm1d_features p w b (features input)))
  | ReLU => Ok (with_features input (map (map relu) (features input)))
  | Conv2d _ _ => Err TypeError
  | SparseSequential cs =>
      fold_left (fun acc c =>
                   match acc with
                   | Ok x => Module_forward c x
                   | Err e => Err e
                   end)
                cs (Ok input)
  end.

(** The children of a [SparseSequential], run from a partial result. *)
Definition run_children (cs : list (nn_Module T)) (acc : result (SparseConvTensor F))
  : result (SparseConvTensor F) :=
  fold_left (fun acc c =>
               match acc with
               | Ok x => Module_forward c x
               | Err e => Err e
               end)
            cs acc.

(** [SparseCNN.forward] *)
Definition forward (self : SparseCNN F T) (features : list (list F))
           (coordinates : list (list Z)) (batch_size : Z)
  : M (list (list (list (list F)) * list (list (list F))) * SparseConvTensor F) :=
  let x0 := {| features := features;
               indices := map (map to_int32) coordinates;
               spatial_shape := grid_shape self;
               batch_size := batch_size |} in
  x1 <- lift (Module_forward (block1 self) x0) ;;
  x2 <- lift (Module_forward (block2 self) x1) ;;
  x3 <- lift (Module_forward (block3 self) x2) ;;
  x4 <- lift (Module_forward (block4 self) x3) ;;
  let args := combine (STRIDES (cfg self)) [x0; x1; x2; x3] in
  x <- mapM (fun '(stride, volume) => to_global self stride volume) args ;;
  ret (x, x4).


(** ** Observations for further properties *)

(** The number of draws the comprehension of [pad_batch] asks for. *)
Definition draws {A} (cps : list (list A * Z)) : N :=
  fold_right (fun cn acc => (Z.to_N (snd cn) + acc)%N) 0%N cps.





(** ** Facts about the tensor primitives *)

Lemma to_int32_small (z : Z) : - 2 ^ 31 <= z < 2 ^ 31 -> to_int32 z = z.
Proof.
  intros Hz. unfold to_int32.
  rewrite Z.mod_small by lia. lia.
Qed.

Lemma map_to_int32_small (l : list Z) :
  Forall (fun z => - 2 ^ 31 <= z < 2 ^ 31) l -> map to_int32 l = l.
Proof.
  induction 1 as [|z l Hz _ IH]; simpl; [reflexivity|].
  now rewrite to_int32_small, IH.
Qed.

Lemma ids_bounds (n : Z) : Forall (fun z => 0 <= z < n) (ids n).
Proof.
  unfold ids. apply Forall_forall. intros z Hz.
  apply in_map_iff in Hz as (k & <- & Hk). apply in_seq in Hk. lia.
Qed.

Lemma ids_length (n : Z) : length (ids n) = Z.to_nat n.
Proof. unfold ids. now rewrite length_map, length_seq. Qed.

Lemma ids_nth (n : Z) (k : nat) :
  (k < Z.to_nat n)%nat -> nth k (ids n) 0 = Z.of_nat k.
Proof.
  intros Hk. unfold ids.
  rewrite nth_indep with (d' := Z.of_nat 0) by now rewrite length_map, length_seq.
  rewrite map_nth, seq_nth by assumption. reflexivity.
Qed.

Lemma fold_left_max_spec (l : list Z) (a : Z) :
  (fold_left Z.max l a = a \/ In (fold_left Z.max l a) l) /\
  a <= fold_left Z.max l a /\
  Forall (fun c => c <= fold_left Z.max l a) l.
Proof.
  revert a. induction l as [|b l IH]; intros a; simpl.
  - repeat split; auto; lia.
  - destruct (IH (Z.max a b)) as (Hin & Hle & Hall).
    repeat split.
    + destruct Hin as [Hin|Hin]; [|now auto].
      rewrite Hin.
      destruct (Z.max_spec a b) as [[_ E]|[_ E]]; rewrite E; auto.
    + lia.
    + constructor; [lia|assumption].
Qed.

Lemma tensor_max_spec (l : list Z) (m : Z) :
  tensor_max l = Ok m -> In m l /\ Forall (fun c => c <= m) l.
Proof.
  destruct l as [|a l]; simpl; [discriminate|].
  intros [= <-].
  destruct (fold_left_max_spec l a) as (Hin & Hle & Hall).
  split; [|constructor; assumption].
  destruct Hin as [E|Hin]; [left; now rewrite E|now right].
Qed.

Lemma tensor_max_nonempty (l : list Z) :
  l <> [] -> exists m, tensor_max l = Ok m.
Proof. destruct l; [congruence|]. simpl. eauto. Qed.

(** Adjacent pairs of a sequence of values. *)
Lemma combine_tl_removelast (f : nat -> Z) (n s : nat) :
  combine (tl (map f (seq s (S n)))) (removelast (map f (seq s (S n))))
  = map (fun k => (f (S k), f k)) (seq s n).
Proof.
  revert s. induction n as [|n IH]; intros s; [reflexivity|].
  specialize (IH (S s)).
  change (seq s (S (S n))) with (s :: S s :: seq (S (S s)) n).
  change (seq (S s) (S n)) with (S s :: seq (S (S s)) n) in IH.
  change (seq s (S n)) with (s :: seq (S s) n).
  cbn [map tl removelast combine] in *.
  now rewrite IH.
Qed.

Lemma count_lt_step (a : list Z) (i : Z) :
  count_lt a (i + 1) - count_lt a i = count_eq a i.
Proof.
  unfold count_lt, count_eq.
  induction a as [|y a IH]; simpl; [reflexivity|].
  destruct (Z.eq_dec y i) as [E|Hne];
    destruct (Z.ltb_spec y (i + 1)); destruct (Z.ltb_spec y i);
    cbn [length]; lia.
Qed.

Lemma count_eq_nonneg (a : list Z) (i : Z) : 0 <= count_eq a i.
Proof. unfold count_eq. lia. Qed.


Lemma compute_pad_amounts_sorted (bi : list Z) (B : Z) :
  searchsorted_contract ->
  Sorted Z.le bi ->
  Forall (fun z => - 2 ^ 31 <= z < 2 ^ 31) bi ->
  0 < B < 2 ^ 31 ->
  exists m,
    tensor_max (map (count_eq bi) (ids B)) = Ok m /\
    compute_pad_amounts bi B =
      Ok (map (count_eq bi) (ids B),
          map (fun c => m - c) (map (count_eq bi) (ids B))).
Proof.
  intros Hc Hs Hr HB.
  destruct (@tensor_max_nonempty (map (count_eq bi) (ids B))) as [m Hm].
  { unfold ids. destruct (Z.to_nat B) eqn:E; [lia|]. discriminate. }
  exists m. split; [assumption|].
  unfold compute_pad_amounts, arange.
  destruct (Z.ltb_spec (B + 1) 0) as [|_]; [lia|]. cbv zeta.
  rewrite (map_to_int32_small Hr).
  rewrite map_to_int32_small.
  2:{ eapply Forall_impl; [|apply ids_bounds]. simpl. intros; lia. }
  rewrite Hc by assumption.
  replace (map (fun '(hi, lo) => hi - lo)
             (combine (tl (map (count_lt bi) (ids (B + 1))))
                      (removelast (map (count_lt bi) (ids (B + 1))))))
    with (map (count_eq bi) (ids B)).
  { now rewrite Hm. }
  unfold ids. replace (Z.to_nat (B + 1)) with (S (Z.to_nat B)) by lia.
  rewrite (map_map Z.of_nat (count_lt bi)).
  rewrite combine_tl_removelast, !map_map.
  apply map_ext. intros k.
  rewrite <- count_lt_step. f_equal. f_equal. lia.
Qed.

(** *** Splitting a sorted batch index *)

Lemma sorted_prefix (bi : list Z) (lo : Z) :
  Sorted Z.le bi -> Forall (fun y => lo <= y) bi ->
  exists c rest,
    bi = repeat lo c ++ rest /\ Sorted Z.le rest /\ Forall (fun y => lo < y) rest.
Proof.
  induction bi as [|y t IH]; intros Hs Hlo.
  - exists 0%nat, []. repeat split; constructor.
  - inversion Hlo as [|? ? Hy Ht]; subst.
    destruct (Z.eq_dec y lo) as [->|Hne].
    + destruct IH as (c & rest & -> & Hs' & Hr); [now inversion Hs|assumption|].
      exists (S c), rest. repeat split; auto.
    + exists 0%nat, (y :: t). repeat split; auto.
      apply Sorted_StronglySorted in Hs; [|exact Z.le_trans].
      inversion Hs; subst. constructor; [lia|].
      eapply Forall_impl; [|eassumption]. simpl; intros; lia.
Qed.

Lemma batch_rows_app {A} (x1 x2 : list A) (b1 b2 : list Z) (i : Z) :
  length x1 = length b1 ->
  batch_rows (x1 ++ x2) (b1 ++ b2) i = batch_rows x1 b1 i ++ batch_rows x2 b2 i.
Proof.
  unfold batch_rows. revert b1.
  induction x1 as [|a x1 IH]; intros [|z b1] H; simpl in H; try discriminate;
    [reflexivity|].
  simpl. destruct (z =? i); simpl; rewrite IH by lia; reflexivity.
Qed.

Lemma batch_rows_repeat_same {A} (x : list A) (lo : Z) :
  batch_rows x (repeat lo (length x)) lo = x.
Proof.
  unfold batch_rows. induction x as [|a x IH]; simpl; [reflexivity|].
  rewrite Z.eqb_refl. simpl. now rewrite IH.
Qed.

Lemma batch_rows_absent {A} (x : list A) (b : list Z) (i : Z) :
  ~ In i b -> batch_rows x b i = [].
Proof.
  unfold batch_rows. revert b.
  induction x as [|a x IH]; intros [|z b] H; simpl; try reflexivity.
  destruct (Z.eqb_spec z i) as [->|_]; [exfalso; apply H; now left|].
  apply IH. intros Hi. apply H. now right.
Qed.

Lemma batch_rows_length {A} (x : list A) (b : list Z) (i : Z) :
  length x = length b ->
  length (batch_rows x b i) = count_occ Z.eq_dec b i.
Proof.
  unfold batch_rows. revert b.
  induction x as [|a x IH]; intros [|z b] H; simpl in H; try discriminate;
    [reflexivity|].
  simpl. destruct (Z.eqb_spec z i) as [->|Hne]; destruct (Z.eq_dec _ _);
    try congruence; simpl; rewrite IH by lia; reflexivity.
Qed.

Lemma batch_rows_incl {A} (x : list A) (b : list Z) (i : Z) (r : A) :
  In r (batch_rows x b i) -> In r x.
Proof.
  unfold batch_rows. intros H.
  apply in_map_iff in H as ([r' z] & <- & H).
  apply filter_In in H as [H _]. now apply in_combine_l in H.
Qed.

(** On a sorted batch index the consecutive chunks of the per-batch
    sizes are the batches. *)
Lemma chunks_of_sorted {A} (n : nat) :
  forall (s : nat) (x : list A) (bi : list Z),
    Sorted Z.le bi ->
    Forall (fun y => Z.of_nat s <= y < Z.of_nat (s + n)) bi ->
    length x = length bi ->
    chunks_of (map (fun k => count_occ Z.eq_dec bi (Z.of_nat k)) (seq s n)) x
    = map (fun k => batch_rows x bi (Z.of_nat k)) (seq s n).
Proof.
  induction n as [|n IH]; intros s x bi Hs Hr Hlen; [reflexivity|].
  destruct (@sorted_prefix bi (Z.of_nat s) Hs) as (c & rest & Hbi & Hs' & Hrest).
  { eapply Forall_impl; [|exact Hr]. simpl; intros; lia. }
  assert (Hnot : ~ In (Z.of_nat s) rest).
  { intros Hin. rewrite Forall_forall in Hrest. apply Hrest in Hin. lia. }
  assert (Hc : count_occ Z.eq_dec bi (Z.of_nat s) = c).
  { rewrite Hbi, count_occ_app, count_occ_repeat_eq by reflexivity.
    apply (count_occ_not_In Z.eq_dec) in Hnot. lia. }
  assert (Hlenbi : length bi = (c + length rest)%nat).
  { now rewrite Hbi, length_app, repeat_length. }
  remember (firstn c x) as x1 eqn:E1.
  remember (skipn c x) as x2 eqn:E2.
  assert (Hx : x = x1 ++ x2) by (subst; symmetry; apply firstn_skipn).
  assert (Hl1 : length x1 = c) by (subst x1; apply firstn_length_le; lia).
  assert (Hl2 : length x2 = length rest) by (subst x2; rewrite length_skipn; lia).
  cbn [seq map chunks_of]. rewrite Hc, <- E1, <- E2.
  clear E1 E2. subst x bi c.
  assert (Hk : forall k, In k (seq (S s) n) -> Z.of_nat k <> Z.of_nat s).
  { intros k Hk. apply in_seq in Hk. lia. }
  f_equal.
  - rewrite batch_rows_app by now rewrite repeat_length.
    rewrite batch_rows_repeat_same, batch_rows_absent by assumption.
    now rewrite app_nil_r.
  - transitivity
      (chunks_of (map (fun k => count_occ Z.eq_dec rest (Z.of_nat k)) (seq (S s) n))
                 x2).
    { f_equal. apply map_ext_in. intros k Hin.
      rewrite count_occ_app, count_occ_repeat_neq; [reflexivity|].
      now apply Hk. }
    rewrite IH; try assumption.
    + apply map_ext_in. intros k Hin.
      rewrite batch_rows_app by now rewrite repeat_length.
      rewrite (@batch_rows_absent A x1); [reflexivity|].
      intros Hr'. apply repeat_spec in Hr'. now apply (Hk k).
    + apply Forall_app in Hr as [_ Hr].
      rewrite Forall_forall in *. intros y Hy.
      specialize (Hr y Hy). specialize (Hrest y Hy). lia.
Qed.

Lemma sum_count_eq (n : nat) :
  forall (s : nat) (bi : list Z),
    Sorted Z.le bi ->
    Forall (fun y => Z.of_nat s <= y < Z.of_nat (s + n)) bi ->
    sum_Z (map (fun k => count_eq bi (Z.of_nat k)) (seq s n))
    = Z.of_nat (length bi).
Proof.
  induction n as [|n IH]; intros s bi Hs Hr.
  - destruct bi as [|y t]; [reflexivity|]. inversion Hr; subst. lia.
  - destruct (@sorted_prefix bi (Z.of_nat s) Hs) as (c & rest & Hbi & Hs' & Hrest).
    { eapply Forall_impl; [|exact Hr]. simpl; intros; lia. }
    assert (Hnot : ~ In (Z.of_nat s) rest).
    { intros Hin. rewrite Forall_forall in Hrest. apply Hrest in Hin. lia. }
    subst bi. cbn [seq map sum_Z fold_right].
    fold (sum_Z (map (fun k => count_eq (repeat (Z.of_nat s) c ++ rest) (Z.of_nat k))
                     (seq (S s) n))).
    replace (map (fun k => count_eq (repeat (Z.of_nat s) c ++ rest) (Z.of_nat k))
                 (seq (S s) n))
      with (map (fun k => count_eq rest (Z.of_nat k)) (seq (S s) n)).
    + rewrite IH; try assumption.
      * unfold count_eq.
        rewrite count_occ_app, count_occ_repeat_eq by reflexivity.
        apply (count_occ_not_In Z.eq_dec) in Hnot.
        rewrite length_app, repeat_length. lia.
      * apply Forall_app in Hr as [_ Hr].
        rewrite Forall_forall in *. intros y Hy.
        specialize (Hr y Hy). specialize (Hrest y Hy). lia.
    + apply map_ext_in. intros k Hin. apply in_seq in Hin. unfold count_eq.
      rewrite count_occ_app, count_occ_repeat_neq; [reflexivity|lia].
Qed.


Lemma split_sorted {A} (x : list A) (bi : list Z) (B : Z) :
  Sorted Z.le bi ->
  Forall (fun y => 0 <= y < B) bi ->
  length x = length bi ->
  split x (map (count_eq bi) (ids B)) = Ok (map (batch_rows x bi) (ids B)).
Proof.
  intros Hs Hr Hlen. unfold split.
  assert (Hr' : Forall (fun y => Z.of_nat 0 <= y < Z.of_nat (0 + Z.to_nat B)) bi).
  { eapply Forall_impl; [|exact Hr]. simpl; intros; lia. }
  replace (forallb (fun s => 0 <=? s) (map (count_eq bi) (ids B))) with true.
  2:{ symmetry. apply forallb_forall. intros c Hc.
      apply in_map_iff in Hc as (i & <- & _).
      apply Z.leb_le, count_eq_nonneg. }
  unfold ids. rewrite !map_map.
  rewrite (@sum_count_eq (Z.to_nat B) 0%nat bi Hs Hr'), Hlen, Z.eqb_refl. simpl. f_equal.
  rewrite <- (@chunks_of_sorted A (Z.to_nat B) 0%nat x bi Hs Hr' Hlen).
  f_equal. apply map_ext. intros k. unfold count_eq. apply Nat2Z.id.
Qed.

(** *** Random oversampling *)

Lemma index_rows_ok {A} (x : list A) (inds : list Z) :
  Forall (fun i => 0 <= i < Z.of_nat (length x)) inds ->
  exists rows,
    index_rows x inds = Ok rows /\
    length rows = length inds /\
    Forall (fun r => In r x) rows.
Proof.
  induction 1 as [|i inds Hi _ (rows & E & Hl & Hin)].
  - exists []. simpl. auto.
  - destruct (nth_error x (Z.to_nat i)) as [r|] eqn:En.
    + exists (r :: rows). unfold index_rows in *. simpl. rewrite E.
      destruct (Z.ltb_spec i 0); [lia|].
      destruct (Z.leb_spec 0 i); [|lia].
      destruct (Z.ltb_spec i (Z.of_nat (length x))); [|lia].
      simpl. rewrite En. repeat split; simpl; auto.
      constructor; [|assumption]. eapply nth_error_In; eassumption.
    + apply nth_error_None in En. lia.
Qed.

Lemma random_choice_nonempty {A} (x : list A) (n : Z) (g : generator) :
  x <> [] ->
  exists p,
    random_choice x n g = Ok (p, advance (Z.to_N n) g) /\
    length p = Z.to_nat n /\
    Forall (fun r => In r x) p.
Proof.
  intros Hx.
  assert (Hpos : 0 < Z.of_nat (length x)).
  { destruct x; [congruence|]. simpl length. lia. }
  unfold random_choice, bind, randint.
  destruct (Z.leb_spec (Z.of_nat (length x)) 0); [lia|].
  match goal with
  | |- context [index_rows x ?l] =>
      destruct (@index_rows_ok A x l) as (rows & E & Hl & Hin)
  end.
  { apply Forall_forall. intros i Hi.
    apply in_map_iff in Hi as (k & <- & _).
    rewrite Z.sub_0_r.
    pose proof (Z.mod_pos_bound (Z.of_N (tape g (pos g + N.of_nat k)%N))
                                (Z.of_nat (length x)) Hpos).
    lia. }
  exists rows. unfold lift. rewrite E.
  rewrite Hl, length_map, length_seq. auto.
Qed.

Lemma random_choice_empty {A} (n : Z) (g : generator) :
  random_choice (@nil A) n g = Err EmptyRange.
Proof. reflexivity. Qed.

Lemma draw_pads_cons {A} (c : list A) (n : Z) cps (g : generator) :
  draw_pads ((c, n) :: cps) g =
  match random_choice c n g with
  | Ok (p, g') =>
      match draw_pads cps g' with
      | Ok (ps, g'') => Ok (p :: ps, g'')
      | Err e => Err e
      end
  | Err e => Err e
  end.
Proof.
  unfold draw_pads. cbn [mapM]. unfold bind at 1.
  destruct (random_choice c n g) as [[p g']|e]; [|reflexivity].
  unfold bind, ret. now destruct mapM as [[ps g'']|e].
Qed.

Lemma draw_pads_ok {A} (cps : list (list A * Z)) :
  Forall (fun cn => fst cn <> []) cps ->
  forall g, exists ps g',
    draw_pads cps g = Ok (ps, g') /\
    Forall2 (fun cn p => length p = Z.to_nat (snd cn) /\
                         Forall (fun r => In r (fst cn)) p) cps ps.
Proof.
  induction 1 as [|[c n] cps Hc _ IH]; intros g.
  - exists [], g. split; [reflexivity|constructor].
  - simpl in Hc.
    destruct (random_choice_nonempty n g Hc) as (p & E & Hl & Hin).
    destruct (IH (advance (Z.to_N n) g)) as (ps & g' & E' & Hall).
    exists (p :: ps), g'. rewrite draw_pads_cons, E, E'.
    split; [reflexivity|]. constructor; auto.
Qed.

Lemma draw_pads_err {A} (cps : list (list A * Z)) :
  Exists (fun cn => fst cn = []) cps ->
  forall g, draw_pads cps g = Err EmptyRange.
Proof.
  induction cps as [|[c n] cps IH]; intros Hex g; [inversion Hex|].
  rewrite draw_pads_cons.
  destruct c as [|a c]; [now rewrite random_choice_empty|].
  destruct (@random_choice_nonempty A (a :: c) n g) as (p & E & _);
    [discriminate|].
  rewrite E, IH; [reflexivity|].
  inversion Hex; subst; [discriminate|assumption].
Qed.

Lemma draw_pads_inv {A} (cps : list (list A * Z)) :
  forall g ps g',
    draw_pads cps g = Ok (ps, g') -> Forall (fun cn => fst cn <> []) cps.
Proof.
  intros g ps g' E.
  apply Forall_forall. intros cn Hin Hnil.
  rewrite draw_pads_err in E; [discriminate|].
  apply Exists_exists. eauto.
Qed.


Lemma Forall2_nth {X Y} (P : X -> Y -> Prop) (l : list X) (l' : list Y) d d' :
  Forall2 P l l' ->
  forall k, (k < length l)%nat -> P (nth k l d) (nth k l' d').
Proof.
  induction 1 as [|a b l l' Hab _ IH]; intros [|k] Hk; simpl in *; try lia; auto.
  apply IH. lia.
Qed.

Lemma Forall2_Forall_r {X Y} (P : X -> Y -> Prop) (l : list X) (l' : list Y) :
  Forall2 P l l' -> Forall (fun b => exists a, In a l /\ P a b) l'.
Proof.
  induction 1 as [|a b l l' Hab _ IH]; constructor.
  - exists a. split; [now left|assumption].
  - eapply Forall_impl; [|exact IH]. simpl.
    intros b' (a' & Hin & HP). exists a'. split; [now right|assumption].
Qed.

Lemma stack_ok {A} (l : list (list A)) (k : nat) :
  l <> [] -> Forall (fun c => length c = k) l -> stack l = Ok l.
Proof.
  destruct l as [|c rest]; [congruence|]. intros _ H.
  inversion H as [|? ? Hc Hrest]; subst. simpl.
  replace (forallb (fun c' => Nat.eqb (length c') (length c)) rest) with true;
    [reflexivity|].
  symmetry. apply forallb_forall. intros c' Hc'.
  rewrite Forall_forall in Hrest. rewrite (Hrest _ Hc'). apply Nat.eqb_refl.
Qed.

Lemma padded_slices {A} (f : Z -> list A) (gz : Z -> Z) (l : list Z) :
  forall ps,
    Forall2 (fun cn p => length p = Z.to_nat (snd cn) /\
                         Forall (fun r => In r (fst cn)) p)
            (combine (map f l) (map gz l)) ps ->
    Forall2 (fun i slice =>
               exists p, slice = f i ++ p /\
                         length p = Z.to_nat (gz i) /\
                         Forall (fun r => In r (f i)) p)
            l (map (fun '(c, p) => c ++ p) (combine (map f l) ps)).
Proof.
  induction l as [|i l IH]; intros ps H; simpl in *.
  - inversion H; subst. constructor.
  - inversion H as [|cn p cps ps' [Hl Hin] Hrest]; subst. simpl.
    constructor; eauto.
Qed.

(** What [pad_batch] returns on a sorted batch index in which every
    batch of [0, batch_size) has a row. *)
Lemma pad_batch_sorted {A} (x : list A) (bi : list Z) (B : Z) (g : generator) :
  searchsorted_contract ->
  1 < B < 2 ^ 31 ->
  length x = length bi ->
  Sorted Z.le bi ->
  Forall (fun y => 0 <= y < B) bi ->
  (forall b, 0 <= b < B -> In b bi) ->
  exists res g' m,
    pad_batch x bi B g = Ok (res, g') /\
    tensor_max (map (count_eq bi) (ids B)) = Ok m /\
    Forall2 (fun i slice =>
               exists p, slice = batch_rows x bi i ++ p /\
                         length p = Z.to_nat (m - count_eq bi i) /\
                         Forall (fun r => In r (batch_rows x bi i)) p)
            (ids B) res.
Proof.
  intros Hc HB Hlen Hs Hr Hall.
  destruct (@compute_pad_amounts_sorted bi B Hc Hs) as (m & Hm & Hcpa);
    [eapply Forall_impl; [|exact Hr]; simpl; intros; lia|lia|].
  pose proof (split_sorted x Hs Hr Hlen) as Hsplit.
  destruct (@draw_pads_ok A
              (combine (map (batch_rows x bi) (ids B))
                       (map (fun c => m - c) (map (count_eq bi) (ids B)))))
    with (g := g) as (ps & g' & E & Hps).
  { apply Forall_forall. intros [c n] Hin. simpl.
    apply in_combine_l in Hin. apply in_map_iff in Hin as (i & <- & Hi).
    pose proof (ids_bounds B) as Hb. rewrite Forall_forall in Hb.
    apply Hb, Hall in Hi. apply (count_occ_In Z.eq_dec) in Hi.
    intros Hnil. apply (f_equal (@length A)) in Hnil.
    rewrite batch_rows_length in Hnil by assumption. simpl in Hnil. lia. }
  rewrite map_map in Hps, E.
  apply padded_slices in Hps.
  exists (map (fun '(c, p) => c ++ p) (combine (map (batch_rows x bi) (ids B)) ps)),
    g', m.
  split; [|split; assumption].
  unfold pad_batch. destruct (Z.eqb_spec B 1) as [|_]; [lia|].
  unfold bind, lift at 1 2. rewrite Hcpa, Hsplit, map_map, E.
  unfold lift. erewrite stack_ok with (k := Z.to_nat m); [reflexivity| |].
  - apply Forall2_length in Hps. rewrite ids_length in Hps.
    intros Hnil. rewrite Hnil in Hps. simpl in Hps. lia.
  - apply tensor_max_spec in Hm as [_ Hle].
    rewrite Forall_forall in Hle.
    apply Forall2_Forall_r in Hps.
    eapply Forall_impl; [|exact Hps]. simpl.
    intros slice (i & Hi & p & -> & Hl & _).
    rewrite length_app, Hl, batch_rows_length by assumption.
    assert (count_eq bi i <= m) by (apply Hle; now apply in_map).
    unfold count_eq in *. lia.
Qed.


(** *** What a successful run of [pad_batch] implies *)

Lemma sum_Z_to_nat (l : list Z) :
  Forall (fun s => 0 <= s) l -> Z.of_nat (list_sum (map Z.to_nat l)) = sum_Z l.
Proof.
  induction 1 as [|z l Hz _ IH]; [reflexivity|].
  unfold list_sum, sum_Z in *. simpl. lia.
Qed.

Lemma split_inv {A} (x : list A) (sizes : list Z) (chunks : list (list A)) :
  split x sizes = Ok chunks ->
  chunks = chunks_of (map Z.to_nat sizes) x /\
  list_sum (map Z.to_nat sizes) = length x.
Proof.
  unfold split.
  destruct (forallb (fun s => 0 <=? s) sizes) eqn:E1; simpl; [|discriminate].
  destruct (Z.eqb_spec (sum_Z sizes) (Z.of_nat (length x))) as [E2|];
    [|discriminate].
  intros [= <-]. split; [reflexivity|].
  rewrite <- sum_Z_to_nat in E2; [lia|].
  apply Forall_forall. intros z Hz.
  rewrite forallb_forall in E1. apply Z.leb_le. now apply E1.
Qed.

Lemma concat_chunks_of {A} (sizes : list nat) :
  forall x : list A, list_sum sizes = length x -> concat (chunks_of sizes x) = x.
Proof.
  induction sizes as [|n sizes IH]; intros x H; simpl in *.
  - destruct x; [reflexivity|discriminate].
  - rewrite IH; [apply firstn_skipn|rewrite length_skipn; lia].
Qed.

Lemma chunks_of_length {A} (sizes : list nat) :
  forall x : list A, length (chunks_of sizes x) = length sizes.
Proof. induction sizes; intros x; simpl; auto. Qed.

Lemma chunks_of_nth {A} (sizes : list nat) :
  forall (x : list A) k c,
    (list_sum sizes <= length x)%nat ->
    nth_error (chunks_of sizes x) k = Some c ->
    nth_error sizes k = Some (length c).
Proof.
  induction sizes as [|n sizes IH]; intros x [|k] c H E; simpl in *;
    try discriminate.
  - injection E as <-. rewrite firstn_length_le by lia. reflexivity.
  - eapply IH; [|exact E]. rewrite length_skipn. lia.
Qed.

Lemma chunks_of_nonempty {A} (sizes : list nat) :
  forall x : list A,
    Forall (fun c => c <> []) (chunks_of sizes x) ->
    Forall (fun n => (1 <= n)%nat) sizes.
Proof.
  induction sizes as [|n sizes IH]; intros x H; simpl in *; constructor;
    inversion H as [|? ? Hc Hrest]; subst.
  - destruct n; [now contradiction Hc|lia].
  - eapply IH; eassumption.
Qed.

Lemma Forall_combine_l {X Y} (P : X -> Prop) (l : list X) :
  forall l' : list Y,
    (length l <= length l')%nat ->
    Forall (fun p => P (fst p)) (combine l l') -> Forall P l.
Proof.
  induction l as [|a l IH]; intros [|b l'] Hl H; simpl in *; try lia;
    constructor; inversion H; subst; auto.
  eapply IH; [|eassumption]. lia.
Qed.

Lemma combine_map_map {X Y W} (f : X -> Y) (h : X -> W) (l : list X) :
  combine (map f l) (map h l) = map (fun i => (f i, h i)) l.
Proof. induction l; simpl; congruence. Qed.

Lemma const_app_sorted (v : Z) (c l : list Z) :
  Forall (fun y => y = v) c ->
  StronglySorted Z.le l -> Forall (fun y => v <= y) l ->
  StronglySorted Z.le (c ++ l) /\ Forall (fun y => v <= y) (c ++ l).
Proof.
  induction 1 as [|y c -> _ IH]; intros Hs Hl; simpl; [auto|].
  destruct (IH Hs Hl) as [Hs' Hl']. split; constructor; auto; lia.
Qed.

Lemma constant_chunks_sorted (chunks : list (list Z)) :
  forall s,
    (forall k c, nth_error chunks k = Some c ->
                 Forall (fun y => y = Z.of_nat (s + k)) c) ->
    StronglySorted Z.le (concat chunks) /\
    Forall (fun y => Z.of_nat s <= y) (concat chunks).
Proof.
  induction chunks as [|c chunks IH]; intros s H; simpl.
  - split; constructor.
  - destruct (IH (S s)) as [Hs Hl].
    { intros k c' E. specialize (H (S k) c' E).
      now replace (S s + k)%nat with (s + S k)%nat by lia. }
    apply const_app_sorted.
    + specialize (H 0%nat c eq_refl). now rewrite Nat.add_0_r in H.
    + assumption.
    + eapply Forall_impl; [|exact Hl]. simpl; intros; lia.
Qed.

Lemma compute_pad_amounts_inv (bi : list Z) (B : Z) (counts pads : list Z) :
  searchsorted_shape ->
  compute_pad_amounts bi B = Ok (counts, pads) ->
  length counts = Z.to_nat B /\ length pads = Z.to_nat B.
Proof.
  intros Hsh. unfold compute_pad_amounts, arange.
  destruct (Z.ltb_spec (B + 1) 0); [discriminate|]. cbv zeta.
  destruct (tensor_max _) eqn:Em; [|discriminate]. intros [= <- <-].
  rewrite !length_map, length_combine, length_tl, removelast_firstn_len,
    length_firstn, Hsh, length_map, ids_length.
  lia.
Qed.

Lemma pad_batch_inv {A} (x : list A) (bi : list Z) (B : Z) g res g' :
  B <> 1 ->
  pad_batch x bi B g = Ok (res, g') ->
  exists counts pads chunks ps gp,
    compute_pad_amounts bi B = Ok (counts, pads) /\
    split x counts = Ok chunks /\
    draw_pads (combine chunks pads) g = Ok (ps, gp).
Proof.
  intros HB. unfold pad_batch. destruct (Z.eqb_spec B 1); [contradiction|].
  unfold bind, lift.
  destruct (compute_pad_amounts bi B) as [[counts pads]|] eqn:E1; [|discriminate].
  destruct (split x counts) as [chunks|] eqn:E2; [|discriminate].
  destruct (draw_pads _ g) as [[ps gp]|] eqn:E3; [|discriminate].
  intros _. exists counts, pads, chunks, ps, gp. auto.
Qed.

Lemma pad_batch_defined_only_if {A} (x : list A) (bi : list Z) (B : Z) :
  1 < B ->
  searchsorted_shape ->
  (exists g res g', pad_batch x bi B g = Ok (res, g')) ->
  chunks_are_batches bi B ->
  Sorted Z.le bi /\ forall b, 0 <= b < B -> In b bi.
Proof.
  intros HB Hsh (g & res & g' & Hrun) (counts & pads & bchunks & Hcpa & Hsb & Hk).
  apply pad_batch_inv in Hrun as (counts' & pads' & xchunks & ps & gp & Hcpa' & Hsx & Hd);
    [|lia].
  rewrite Hcpa in Hcpa'. injection Hcpa' as <- <-.
  destruct (@compute_pad_amounts_inv bi B counts pads Hsh Hcpa) as [Hlc Hlp].
  apply split_inv in Hsx as [-> Hsumx]. apply split_inv in Hsb as [-> Hsumb].
  apply draw_pads_inv in Hd.
  apply (@Forall_combine_l _ _ (fun c => c <> [])) in Hd;
    [|rewrite chunks_of_length, length_map; lia].
  apply chunks_of_nonempty in Hd.
  pose proof (concat_chunks_of _ _ Hsumb) as Hcat.
  split.
  - rewrite <- Hcat. apply StronglySorted_Sorted.
    now apply (@constant_chunks_sorted _ 0%nat).
  - intros b Hb.
    destruct (nth_error (chunks_of (map Z.to_nat counts) bi) (Z.to_nat b))
      as [c|] eqn:E.
    2:{ apply nth_error_None in E.
        rewrite chunks_of_length, length_map in E. lia. }
    pose proof (Hk _ _ E) as Hc.
    pose proof (chunks_of_nth _ _ _ (Nat.eq_le_incl _ _ Hsumb) E) as Hn.
    apply nth_error_In in Hn. rewrite Forall_forall in Hd. apply Hd in Hn.
    destruct c as [|y c]; [simpl in Hn; lia|].
    inversion Hc as [|? ? Hy _]; subst y.
    rewrite <- Hcat. apply in_concat. exists (Z.of_nat (Z.to_nat b) :: c).
    split; [eapply nth_error_In; eassumption|].
    left. lia.
Qed.

Lemma pad_batch_empty_batch {A} (x : list A) (bi : list Z) (B : Z) :
  1 < B < 2 ^ 31 ->
  searchsorted_contract ->
  length x = length bi ->
  Sorted Z.le bi ->
  Forall (fun y => 0 <= y < B) bi ->
  (exists b, 0 <= b < B /\ ~ In b bi) ->
  forall g, pad_batch x bi B g = Err EmptyRange.
Proof.
  intros HB Hc Hlen Hs Hr (b & Hb & Hnot) g.
  destruct (@compute_pad_amounts_sorted bi B Hc Hs) as (m & Hm & Hcpa);
    [eapply Forall_impl; [|exact Hr]; simpl; intros; lia|lia|].
  pose proof (split_sorted x Hs Hr Hlen) as Hsplit.
  unfold pad_batch. destruct (Z.eqb_spec B 1) as [|_]; [lia|].
  unfold bind, lift at 1 2. rewrite Hcpa, Hsplit.
  rewrite draw_pads_err; [reflexivity|].
  rewrite map_map, combine_map_map. apply Exists_exists.
  exists (batch_rows x bi b, m - count_eq bi b). split.
  - apply in_map_iff. exists b. split; [reflexivity|].
    unfold ids. apply in_map_iff. exists (Z.to_nat b).
    split; [lia|]. apply in_seq. lia.
  - simpl. now apply batch_rows_absent.
Qed.


(** *** Coordinates and voxel means *)

Lemma map_result_ok {X Y} (f : X -> result Y) (h : X -> Y) (l : list X) :
  (forall a, In a l -> f a = Ok (h a)) -> map_result f l = Ok (map h l).
Proof.
  induction l as [|a l IH]; intros H; simpl; [reflexivity|].
  rewrite H by now left. rewrite IH; [reflexivity|].
  intros a' Ha'. apply H. now right.
Qed.

Lemma bind_lift_ok {X Y} (v : X) (k : X -> M Y) : bind (lift (Ok v)) k = k v.
Proof. reflexivity. Qed.

Lemma broadcast_scalar (op : F -> F -> F) (a : list F) (v : F) :
  broadcast op a [v] = Ok (map (fun u => op u v) a).
Proof. destruct a as [|u [|u' a]]; reflexivity. Qed.

Lemma to_global_eq (self : SparseCNN F T) (stride : F)
      (volume : SparseConvTensor F) (v0 v1 v2 o0 o1 o2 : F) :
  base_voxel_size self = [v0; v1; v2] ->
  voxel_offset self = [o0; o1; o2] ->
  Forall (fun row => length row = 4%nat) (indices volume) ->
  to_global self stride volume =
  (xyz <- pad_batch
            (map (metric [v0; v1; v2] [o0; o1; o2] stride) (indices volume))
            (map (fun row => nth 0 row 0) (indices volume))
            (batch_size volume) ;;
   feature <- pad_batch (features volume)
                        (map (fun row => nth 0 row 0) (indices volume))
                        (batch_size volume) ;;
   ret (xyz, feature)).
Proof.
  intros Hv Ho Hrows. unfold to_global. rewrite Hv, Ho.
  rewrite Forall_forall in Hrows.
  assert (Hrow : forall r, In r (indices volume) ->
                           exists b z y x, r = [b; z; y; x]).
  { intros r Hr. apply Hrows in Hr.
    destruct r as [|b [|z [|y [|x [|]]]]]; try discriminate. eauto. }
  rewrite map_result_ok
    with (h := fun row => map (fun '(u, v) => fmul u v)
                              (combine (map of_int (firstn 3 row))
                                       [fmul v0 stride; fmul v1 stride; fmul v2 stride])).
  2:{ intros row Hin. apply in_map_iff in Hin as (r & <- & Hr).
      destruct (Hrow r Hr) as (b & z & y & x & ->). reflexivity. }
  rewrite bind_lift_ok, map_map.
  rewrite map_result_ok
    with (h := fun row => map (fun '(u, v) => fadd u v) (combine row [o0; o1; o2])).
  2:{ intros row Hin. apply in_map_iff in Hin as (r & <- & Hr).
      destruct (Hrow r Hr) as (b & z & y & x & ->). reflexivity. }
  rewrite bind_lift_ok, map_map.
  rewrite map_result_ok with (h := fun row => nth 3 row 0).
  2:{ intros row Hin. apply in_map_iff in Hin as (r & <- & Hr).
      destruct (Hrow r Hr) as (b & z & y & x & ->). reflexivity. }
  rewrite bind_lift_ok, map_map.
  replace (map (fun x => nth 3 (rev x) 0) (indices volume))
    with (map (fun row => nth 0 row 0) (indices volume)).
  2:{ apply map_ext_in. intros r Hr.
      destruct (Hrow r Hr) as (b & z & y & x & ->). reflexivity. }
  match goal with
  | |- context [pad_batch (map ?f (indices volume))] =>
      replace (map f (indices volume))
        with (map (metric [v0; v1; v2] [o0; o1; o2] stride) (indices volume))
  end.
  2:{ apply map_ext_in. intros r Hr.
      destruct (Hrow r Hr) as (b & z & y & x & ->). reflexivity. }
  reflexivity.
Qed.


Lemma sum_dim1_length (feature : Tensor3 F) :
  length (sum_dim1 feature) = length (data3 feature).
Proof.
  unfold sum_dim1. destruct (shape3 feature) as [[N K] C].
  apply length_map.
Qed.

Lemma voxel_means (feature : Tensor3 F) (occupancy : list Z) (N K C : nat) :
  shape3 feature = (N, K, C) ->
  length (data3 feature) = N ->
  length occupancy = N ->
  exists out,
    VoxelFeatureExtractor_forward feature occupancy = Ok out /\
    length out = N /\
    Forall (fun row => length row = C) out /\
    forall i c, (i < N)%nat -> (c < C)%nat ->
      nth c (nth i out []) (of_int 0) =
      fdiv (fsum (map (fun point => nth c point (of_int 0))
                      (nth i (data3 feature) [])))
           (of_int (nth i occupancy 0)).
Proof.
  intros Hshape HN Hocc.
  set (h := fun rs : list F * list F =>
              map (fun u => fdiv u (nth 0 (snd rs) (of_int 0))) (fst rs)).
  set (dens := map (fun o => [of_int o]) occupancy).
  exists (map h (combine (sum_dim1 feature) dens)).
  assert (Hl : length (sum_dim1 feature) = length dens).
  { rewrite sum_dim1_length. unfold dens. rewrite length_map. congruence. }
  split; [|split; [|split]].
  - unfold VoxelFeatureExtractor_forward, broadcast_rows. fold dens.
    rewrite Hl, Nat.eqb_refl.
    apply map_result_ok. intros [r d] Hin.
    apply in_combine_r in Hin. unfold dens in Hin.
    apply in_map_iff in Hin as (o & <- & _).
    apply broadcast_scalar.
  - rewrite length_map, length_combine, <- Hl, Nat.min_id, sum_dim1_length.
    assumption.
  - apply Forall_forall. intros row Hin.
    apply in_map_iff in Hin as ([r d] & <- & Hin).
    apply in_combine_l in Hin. unfold sum_dim1 in Hin. rewrite Hshape in Hin.
    apply in_map_iff in Hin as (voxel & <- & _).
    unfold h. simpl. now rewrite !length_map, length_seq.
  - intros i c Hi Hc.
    replace (nth i (map h (combine (sum_dim1 feature) dens)) [])
      with (nth i (map h (combine (sum_dim1 feature) dens)) (h ([], [])))
      by reflexivity.
    rewrite map_nth, combine_nth by assumption.
    unfold h, dens. cbn [fst snd].
    rewrite nth_indep with (d' := [of_int 0]) (l := map _ occupancy)
      by (rewrite length_map; lia).
    rewrite (map_nth (fun o => [of_int o])). cbn [nth].
    unfold sum_dim1. rewrite Hshape.
    set (G := fun voxel : list (list F) =>
                map (fun c0 => fsum (map (fun point => nth c0 point (of_int 0)) voxel))
                    (seq 0 C)).
    rewrite nth_indep with (d' := G []) (l := map G (data3 feature))
      by (rewrite length_map; lia).
    rewrite (map_nth G). unfold G. rewrite map_map.
    set (f := fun c0 => fdiv (fsum (map (fun point => nth c0 point (of_int 0))
                                        (nth i (data3 feature) [])))
                             (of_int (nth i occupancy 0))).
    rewrite nth_indep with (d' := f 0%nat) by now rewrite length_map, length_seq.
    rewrite (map_nth f), seq_nth by assumption. reflexivity.
Qed.


(** *** The network *)

Lemma Module_forward_sequential (cs : list (nn_Module T)) (x : SparseConvTensor F) :
  Module_forward (SparseSequential cs) x = run_children cs (Ok x).
Proof. reflexivity. Qed.

Lemma run_children_cons (c : nn_Module T) cs (x : SparseConvTensor F) :
  run_children (c :: cs) (Ok x) = run_children cs (Module_forward c x).
Proof. reflexivity. Qed.

Lemma subm_layer_sites (C_in C_out : Z) (args : list size_arg) (kw : kwargs)
      (x : SparseConvTensor F) :
  exists y,
    Module_forward (make_subm_layer C_in C_out args kw) x = Ok y /\
    indices y = indices x /\
    spatial_shape y = spatial_shape x /\
    batch_size y = batch_size x.
Proof. eexists. repeat split. Qed.

Lemma subm_layers_sites (layers : list (nn_Module T)) :
  Forall is_subm_layer layers ->
  forall x, exists y,
    Module_forward (SparseSequential layers) x = Ok y /\
    indices y = indices x.
Proof.
  induction 1 as [|m layers (C_in & C_out & args & kw & ->) _ IH]; intros x.
  - exists x. split; reflexivity.
  - destruct (subm_layer_sites C_in C_out args kw x) as (y & Hy & Hi & _).
    destruct (IH y) as (z & Hz & Hiz).
    exists z. rewrite Module_forward_sequential, run_children_cons, Hy.
    rewrite <- Module_forward_sequential. split; congruence.
Qed.

Lemma to_global_single (self : SparseCNN F T) (stride : F)
      (volume : SparseConvTensor F) (v0 v1 v2 o0 o1 o2 : F) (g : generator) :
  base_voxel_size self = [v0; v1; v2] ->
  voxel_offset self = [o0; o1; o2] ->
  Forall (fun row => length row = 4%nat) (indices volume) ->
  batch_size volume = 1 ->
  to_global self stride volume g =
  Ok (([map (metric [v0; v1; v2] [o0; o1; o2] stride) (indices volume)],
       [features volume]), g).
Proof.
  intros Hv Ho Hrows HB.
  rewrite (to_global_eq self stride volume Hv Ho Hrows), HB. reflexivity.
Qed.

(** The modules of the network accept every sparse tensor and keep its
    batch size. *)
Lemma sequential_forward (cs : list (nn_Module T)) :
  Forall (fun m => forall x, exists y,
              Module_forward m x = Ok y /\ batch_size y = batch_size x) cs ->
  forall x, exists y,
    Module_forward (SparseSequential cs) x = Ok y /\
    batch_size y = batch_size x.
Proof.
  induction 1 as [|m cs Hm _ IH]; intros x.
  - exists x. split; reflexivity.
  - destruct (Hm x) as (y & Hy & Hb). destruct (IH y) as (z & Hz & Hbz).
    exists z. rewrite Module_forward_sequential, run_children_cons, Hy.
    rewrite <- Module_forward_sequential. split; congruence.
Qed.

Lemma subm_layer_forward (C_in C_out : Z) (args : list size_arg) (kw : kwargs)
      (x : SparseConvTensor F) :
  exists y,
    Module_forward (make_subm_layer C_in C_out args kw) x = Ok y /\
    batch_size y = batch_size x.
Proof. eexists. split; reflexivity. Qed.

Lemma sparse_conv_layer_forward (C_in C_out : Z) (args : list size_arg)
      (kw : kwargs) (x : SparseConvTensor F) :
  exists y,
    Module_forward (make_sparse_conv_layer C_in C_out args kw) x = Ok y /\
    batch_size y = batch_size x.
Proof. eexists. split; reflexivity. Qed.

Lemma blocks_forward (grid : list Z) (c : Cfg F) (x0 : SparseConvTensor F) :
  let net := SparseCNN_init grid c in
  exists x1 x2 x3 x4,
    Module_forward (block1 net) x0 = Ok x1 /\
    Module_forward (block2 net) x1 = Ok x2 /\
    Module_forward (block3 net) x2 = Ok x3 /\
    Module_forward (block4 net) x3 = Ok x4 /\
    batch_size x1 = batch_size x0 /\
    batch_size x2 = batch_size x0 /\
    batch_size x3 = batch_size x0.
Proof.
  intros net.
  assert (Hblock : forall b, In b [block1 net; block2 net; block3 net; block4 net] ->
                             forall x, exists y,
                               Module_forward b x = Ok y /\
                               batch_size y = batch_size x).
  { intros b Hb. cbn [In] in Hb.
    destruct Hb as [<-|[<-|[<-|[<-|[]]]]];
      apply sequential_forward;
      repeat (constructor;
              [first [apply subm_layer_forward|apply sparse_conv_layer_forward]|]);
      constructor. }
  destruct (Hblock (block1 net)) with (x := x0) as (x1 & H1 & B1);
    [now left|].
  destruct (Hblock (block2 net)) with (x := x1) as (x2 & H2 & B2);
    [right; now left|].
  destruct (Hblock (block3 net)) with (x := x2) as (x3 & H3 & B3);
    [right; right; now left|].
  destruct (Hblock (block4 net)) with (x := x3) as (x4 & H4 & B4);
    [right; right; right; now left|].
  exists x1, x2, x3, x4.
  rewrite B1 in B2. rewrite B2 in B3.
  repeat (split; [assumption|]). assumption.
Qed.

(** ** The claims *)

(** C1: for a volume whose index rows are (batch, z, y, x), [to_global]
    reverses each row, multiplies the first three reversed components by
    base_voxel_size * stride, adds voxel_offset (the first three
    GRID_BOUNDS values), and pads coordinates and features with the
    last column of the reversed index, which is the original batch
    column. *)
Theorem to_global_metric (grid : list Z) (c : Cfg F) (stride : F)
        (volume : SparseConvTensor F) (v0 v1 v2 o0 o1 o2 : F) (bounds : list F) :
  VOXEL_SIZE c = [v0; v1; v2] ->
  GRID_BOUNDS c = o0 :: o1 :: o2 :: bounds ->
  Forall (fun row => length row = 4%nat) (indices volume) ->
  let self := SparseCNN_init grid c in
  let batch_index := map (fun row => nth 0 row 0) (indices volume) in
  let xyz := map (metric (VOXEL_SIZE c) (firstn 3 (GRID_BOUNDS c)) stride)
                 (indices volume) in
  to_global self stride volume =
    (xyz <- pad_batch xyz batch_index (batch_size volume) ;;
     feature <- pad_batch (features volume) batch_index (batch_size volume) ;;
     ret (xyz, feature)) /\
  batch_index = map (fun row => last (rev row) 0) (indices volume) /\
  forall b z y x,
    metric (VOXEL_SIZE c) (firstn 3 (GRID_BOUNDS c)) stride [b; z; y; x] =
    [ fadd (fmul (of_int x) (fmul v0 stride)) o0;
      fadd (fmul (of_int y) (fmul v1 stride)) o1;
      fadd (fmul (of_int z) (fmul v2 stride)) o2 ].
Proof.
  intros Hv Ho Hrows self batch_index xyz. subst xyz.
  rewrite Hv, Ho. cbn [firstn].
  split; [|split].
  - apply to_global_eq; [exact Hv| |exact Hrows].
    unfold self. cbn [SparseCNN_init voxel_offset]. now rewrite Ho.
  - apply map_ext_in. intros r Hr.
    rewrite Forall_forall in Hrows. apply Hrows in Hr.
    destruct r as [|b [|z [|y [|x [|]]]]]; try discriminate. reflexivity.
  - reflexivity.
Qed.

(** C2 (amended): for every x of N rows and every sorted batch_index of
    length N whose entries lie in [0, batch_size) and in which every
    batch id of that range occurs, with 1 < batch_size < 2^31,
    [pad_batch] splits x into the per-batch chunks, pads each chunk with
    rows of that same chunk up to the maximum per-batch count, and
    returns batch_size slices of max_count rows; the first
    batch_count[i] rows of slice i are chunk i unchanged. *)
Theorem pad_batch_pads_every_batch {A} (x : list A) (batch_index : list Z)
        (batch_size : Z) (g : generator) :
  searchsorted_contract ->
  1 < batch_size < 2 ^ 31 ->
  length x = length batch_index ->
  Sorted Z.le batch_index ->
  Forall (fun y => 0 <= y < batch_size) batch_index ->
  (forall b, 0 <= b < batch_size -> In b batch_index) ->
  let batch_count := map (count_eq batch_index) (ids batch_size) in
  exists res g' max_count,
    pad_batch x batch_index batch_size g = Ok (res, g') /\
    compute_pad_amounts batch_index batch_size =
      Ok (batch_count, map (fun c => max_count - c) batch_count) /\
    split x batch_count = Ok (map (batch_rows x batch_index) (ids batch_size)) /\
    In max_count batch_count /\
    Forall (fun c => c <= max_count) batch_count /\
    length res = Z.to_nat batch_size /\
    forall i, 0 <= i < batch_size ->
      let slice := nth (Z.to_nat i) res [] in
      let n := Z.to_nat (count_eq batch_index i) in
      length slice = Z.to_nat max_count /\
      firstn n slice = batch_rows x batch_index i /\
      Forall (fun r => In r (batch_rows x batch_index i)) (skipn n slice).
Proof.
  intros Hc HB Hlen Hs Hr Hall batch_count.
  destruct (@pad_batch_sorted A x batch_index batch_size g Hc HB Hlen Hs Hr Hall)
    as (res & g' & m & Hrun & Hm & Hslices).
  destruct (@compute_pad_amounts_sorted batch_index batch_size Hc Hs)
    as (m' & Hm' & Hcpa);
    [eapply Forall_impl; [|exact Hr]; simpl; intros; lia|lia|].
  rewrite Hm in Hm'. injection Hm' as <-.
  destruct (tensor_max_spec _ Hm) as [Hin Hle].
  exists res, g', m.
  split; [exact Hrun|]. split; [exact Hcpa|].
  split; [now apply split_sorted|]. split; [exact Hin|]. split; [exact Hle|].
  split.
  - apply Forall2_length in Hslices. now rewrite ids_length in Hslices.
  - intros i Hi slice n.
    assert (Hk : (Z.to_nat i < length (ids batch_size))%nat)
      by (rewrite ids_length; lia).
    pose proof (Forall2_nth 0 [] Hslices Hk) as (p & Hp & Hl & Hpin).
    rewrite ids_nth, Z2Nat.id in Hp, Hl, Hpin by (rewrite ?ids_length in Hk; lia).
    assert (Hn : length (batch_rows x batch_index i) = n).
    { rewrite batch_rows_length by assumption. unfold n, count_eq.
      now rewrite Nat2Z.id. }
    assert (Hci : count_eq batch_index i <= m).
    { rewrite Forall_forall in Hle. apply Hle. apply in_map.
      unfold ids. apply in_map_iff. exists (Z.to_nat i).
      split; [lia|]. apply in_seq. lia. }
    fold slice in Hp. rewrite Hp. repeat split.
    + rewrite length_app, Hl, Hn. unfold n. pose proof (count_eq_nonneg batch_index i).
      lia.
    + rewrite <- Hn, firstn_app, firstn_all, Nat.sub_diag. cbn [firstn].
      apply app_nil_r.
    + rewrite <- Hn, skipn_app, skipn_all, Nat.sub_diag. exact Hpin.
Qed.


(** C3 (amended): with at least four entries in cfg.STRIDES, [forward]
    runs blocks 1 to 4 and then converts the input tensor and the outputs
    of blocks 1-3 with [to_global], paired with cfg.STRIDES in order; when
    the four conversions succeed it returns their list and the block-4
    output as a separate, unconverted sparse tensor, and when one of them
    raises, [forward] raises.  With batch_size = 1 and well-shaped
    operands the conversions always succeed.  The strided convolutions
    give the outputs of blocks 1-3 the strides 2, 4 and 8 on every axis
    and the block-4 output the stride 8 in Y and X (16 in Z). *)
Theorem forward_volumes (grid : list Z) (c : Cfg F) (feats : list (list F))
        (coordinates : list (list Z)) (B : Z) (g : generator)
        (s0 s1 s2 s3 : F) (rest : list F) :
  STRIDES c = s0 :: s1 :: s2 :: s3 :: rest ->
  let self := SparseCNN_init grid c in
  let x0 := {| features := feats;
               indices := map (map to_int32) coordinates;
               spatial_shape := grid;
               batch_size := B |} in
  exists x1 x2 x3 x4,
    Module_forward (block1 self) x0 = Ok x1 /\
    Module_forward (block2 self) x1 = Ok x2 /\
    Module_forward (block3 self) x2 = Ok x3 /\
    Module_forward (block4 self) x3 = Ok x4 /\
    forward self feats coordinates B g =
      (v0 <- to_global self s0 x0 ;;
       v1 <- to_global self s1 x1 ;;
       v2 <- to_global self s2 x2 ;;
       v3 <- to_global self s3 x3 ;;
       ret ([v0; v1; v2; v3], x4)) g /\
    (forall a0 a1 a2 o0 o1 o2 bounds,
        B = 1 ->
        VOXEL_SIZE c = [a0; a1; a2] ->
        GRID_BOUNDS c = o0 :: o1 :: o2 :: bounds ->
        Forall (fun v => Forall (fun row => length row = 4%nat) (indices v))
               [x0; x1; x2; x3] ->
        forward self feats coordinates B g =
          Ok ((map (fun '(s, v) =>
                      ([map (metric [a0; a1; a2] [o0; o1; o2] s) (indices v)],
                       [features v]))
                   [(s0, x0); (s1, x1); (s2, x2); (s3, x3)],
               x4), g)) /\
    total_stride (SparseSequential [block1 self]) = [2; 2; 2] /\
    total_stride (SparseSequential [block1 self; block2 self]) = [4; 4; 4] /\
    total_stride (SparseSequential [block1 self; block2 self; block3 self])
      = [8; 8; 8] /\
    total_stride
      (SparseSequential [block1 self; block2 self; block3 self; block4 self])
      = [16; 8; 8].
Proof.
  intros Hstrides self x0.
  destruct (blocks_forward grid c x0)
    as (x1 & x2 & x3 & x4 & H1 & H2 & H3 & H4 & B1 & B2 & B3).
  fold self in H1, H2, H3, H4.
  exists x1, x2, x3, x4.
  do 4 (split; [assumption|]).
  assert (Hfwd : forward self feats coordinates B g =
                 (v0 <- to_global self s0 x0 ;;
                  v1 <- to_global self s1 x1 ;;
                  v2 <- to_global self s2 x2 ;;
                  v3 <- to_global self s3 x3 ;;
                  ret ([v0; v1; v2; v3], x4)) g).
  { unfold forward. change (grid_shape self) with grid. fold x0.
    rewrite H1, bind_lift_ok, H2, bind_lift_ok, H3, bind_lift_ok, H4, bind_lift_ok.
    change (STRIDES (cfg self)) with (STRIDES c). rewrite Hstrides.
    cbn [combine]. rewrite combine_nil. cbn [mapM]. unfold bind, ret.
    destruct (to_global self s0 x0 g) as [[v0 g0]|]; [|reflexivity].
    destruct (to_global self s1 x1 g0) as [[v1 g1]|]; [|reflexivity].
    destruct (to_global self s2 x2 g1) as [[v2 g2]|]; [|reflexivity].
    destruct (to_global self s3 x3 g2) as [[v3 g3]|]; reflexivity. }
  split; [exact Hfwd|]. split; [|repeat split].
  intros a0 a1 a2 o0 o1 o2 bounds HB Hv Ho Hrows.
  assert (Hoff : voxel_offset self = [o0; o1; o2]).
  { unfold self. cbn [SparseCNN_init voxel_offset]. now rewrite Ho. }
  inversion Hrows as [|? ? R0 Hrows1]; subst.
  inversion Hrows1 as [|? ? R1 Hrows2]; subst.
  inversion Hrows2 as [|? ? R2 Hrows3]; subst.
  inversion Hrows3 as [|? ? R3 _]; subst.
  rewrite Hfwd. unfold bind.
  rewrite (to_global_single self s0 x0 g Hv Hoff R0 eq_refl).
  rewrite (to_global_single self s1 x1 g Hv Hoff R1 B1).
  rewrite (to_global_single self s2 x2 g Hv Hoff R2 B2).
  rewrite (to_global_single self s3 x3 g Hv Hoff R3 B3).
  reflexivity.
Qed.

(** C4: the network is a cascade of four blocks of submanifold layers
    (convolution, batch normalisation, ReLU) that end in one strided
    sparse convolution: two submanifold layers in blocks 1 and 2, three
    in blocks 3 and 4, with channel widths C_IN->16->32, 32->64, 64->64
    and 64->64, and no convolution has a bias. *)
Theorem SparseCNN_topology (grid : list Z) (c : Cfg F) :
  let self := SparseCNN_init grid c in
  block_signature (block1 self)
    = [Subm (C_IN c) 16; Subm 16 16; Strided 16 32 [2; 2; 2]] /\
  block_signature (block2 self)
    = [Subm 32 32; Subm 32 32; Strided 32 64 [2; 2; 2]] /\
  block_signature (block3 self)
    = [Subm 64 64; Subm 64 64; Subm 64 64; Strided 64 64 [2; 2; 2]] /\
  block_signature (block4 self)
    = [Subm 64 64; Subm 64 64; Subm 64 64; Strided 64 64 [2; 1; 1]] /\
  Forall (fun m => is_conv m = true -> get_bias m = None)
         (SparseCNN_modules self).
Proof.
  intros self. do 4 (split; [reflexivity|]).
  unfold self, SparseCNN_modules. cbn.
  repeat (constructor; [intros H; first [reflexivity|discriminate H]|]).
  constructor.
Qed.

(** C5: on a feature tensor of shape (N, K, C) and an occupancy vector
    of length N with positive entries, [VoxelFeatureExtractor.forward]
    returns a tensor of shape (N, C) whose row i is the sum over the K
    axis of feature[i] divided by occupancy[i]. *)
Theorem VoxelFeatureExtractor_mean (feature : Tensor3 F) (occupancy : list Z)
        (N K C : nat) :
  shape3 feature = (N, K, C) ->
  wf3 feature ->
  length occupancy = N ->
  Forall (fun o => 0 < o) occupancy ->
  exists out,
    VoxelFeatureExtractor_forward feature occupancy = Ok out /\
    length out = N /\
    Forall (fun row => length row = C) out /\
    forall i c, (i < N)%nat -> (c < C)%nat ->
      nth c (nth i out []) (of_int 0) =
      fdiv (fsum (map (fun point => nth c point (of_int 0))
                      (nth i (data3 feature) [])))
           (of_int (nth i occupancy 0)).
Proof.
  intros Hshape Hwf Hocc _.
  apply voxel_means with (K := K); [exact Hshape| |exact Hocc].
  unfold wf3 in Hwf. rewrite Hshape in Hwf. exact (proj1 Hwf).
Qed.

(** C6: a layer built by [make_subm_layer] returns a tensor whose active
    sites are those of its input, so the layers of a block that share an
    indice_key, run one after the other, all work on one index set. *)
Theorem subm_layers_preserve_sites (layers : list (nn_Module T))
        (x : SparseConvTensor F) :
  Forall is_subm_layer layers ->
  Forall (fun m => exists y, Module_forward m x = Ok y /\ indices y = indices x)
         layers /\
  forall n, exists y,
    Module_forward (SparseSequential (firstn n layers)) x = Ok y /\
    indices y = indices x.
Proof.
  intros Hl. split.
  - eapply Forall_impl; [|exact Hl]. simpl.
    intros m (C_in & C_out & args & kw & ->).
    destruct (subm_layer_sites C_in C_out args kw x) as (y & Hy & Hi & _).
    eauto.
  - intros n. apply subm_layers_sites.
    apply Forall_forall. intros m Hm.
    rewrite Forall_forall in Hl. apply Hl.
    rewrite <- (firstn_skipn n layers). apply in_or_app. now left.
Qed.


(** C7: every batch-normalisation layer of the network is one that
    [build_batchnorm] built, with eps = 1e-3 and momentum = 0.01, and
    every parameter of such a layer has requires_grad set to True. *)
Theorem batchnorm_layers (grid : list Z) (c : Cfg F) :
  let self := SparseCNN_init grid c in
  length (filter (@isinstance_BatchNorm T) (SparseCNN_modules self)) = 14%nat /\
  Forall (fun m =>
            exists C,
              m = build_batchnorm C /\
              m = BatchNorm1d
                    {| num_features := C; eps := 1 # 1000; momentum := 1 # 100 |}
                    {| data := fresh [C]; requires_grad := true |}
                    {| data := fresh [C]; requires_grad := true |} /\
              Forall (fun prm => requires_grad prm = true) (parameters m))
         (filter (@isinstance_BatchNorm T) (SparseCNN_modules self)).
Proof.
  intros self. split; [reflexivity|].
  unfold self, SparseCNN_modules. cbn.
  repeat (constructor;
          [eexists; split; [reflexivity|split; [reflexivity|repeat constructor]]|]).
  constructor.
Qed.

(** C8: [init_weights] leaves every convolution of SparseCNN as it is:
    no module of the network is an nn.Conv2d, the Kaiming branch never
    runs (the generator is not used), and only the batch-normalisation
    weights and biases change, to 1 and 0. *)
Theorem init_weights_spares_convolutions (grid : list Z) (c : Cfg F)
        (g : generator) :
  let self := SparseCNN_init grid c in
  Forall (fun m => isinstance_Conv2d m = false) (SparseCNN_modules self) /\
  exists self',
    init_weights self g = Ok (self', g) /\
    Forall2 init_effect (SparseCNN_modules self) (SparseCNN_modules self') /\
    filter (@is_conv T) (SparseCNN_modules self')
      = filter (@is_conv T) (SparseCNN_modules self).
Proof.
  intros self. split.
  - unfold self, SparseCNN_modules. cbn. repeat constructor.
  - eexists. split; [reflexivity|]. split; [|reflexivity].
    unfold SparseCNN_modules. cbn.
    repeat (constructor; [first [reflexivity|repeat split]|]).
    constructor.
Qed.

(** C9: for batch_size > 1, [pad_batch] is well defined only when
    batch_index is sorted and every batch id of [0, batch_size) occurs:
    a run that returns, with chunks that are the batches, implies both;
    and on a sorted batch index in which some batch has no row, the pad
    of that batch is drawn from an empty chunk and the call fails. *)
Theorem pad_batch_precondition {A} (x : list A) (batch_index : list Z)
        (batch_size : Z) :
  1 < batch_size ->
  (searchsorted_shape ->
   (exists g res g', pad_batch x batch_index batch_size g = Ok (res, g')) ->
   chunks_are_batches batch_index batch_size ->
   Sorted Z.le batch_index /\
   forall b, 0 <= b < batch_size -> In b batch_index) /\
  (searchsorted_contract ->
   batch_size < 2 ^ 31 ->
   length x = length batch_index ->
   Sorted Z.le batch_index ->
   Forall (fun y => 0 <= y < batch_size) batch_index ->
   (exists b, 0 <= b < batch_size /\ ~ In b batch_index) ->
   forall g, pad_batch x batch_index batch_size g = Err EmptyRange).
Proof.
  intros HB. split.
  - intros Hsh Hrun Hchunks. now apply (@pad_batch_defined_only_if A x).
  - intros Hc HB' Hlen Hs Hr Hmiss g.
    apply pad_batch_empty_batch; auto; lia.
Qed.

(** C10: with batch_size = 1, [pad_batch] returns its input under a new
    leading axis, whatever batch_index is; nothing is split, nothing is
    drawn from the generator. *)
Theorem pad_batch_single_batch {A} (x : list A) (batch_index : list Z)
        (g : generator) :
  pad_batch x batch_index 1 g = Ok ([x], g).
Proof. reflexivity. Qed.

(** ** Further properties *)

Lemma advance_0 (g : generator) : advance 0 g = g.
Proof. destruct g as [t p]. unfold advance. simpl. now rewrite N.add_0_r. Qed.

Lemma advance_advance (a b : N) (g : generator) :
  advance b (advance a g) = advance (a + b) g.
Proof. unfold advance. simpl. now rewrite N.add_assoc. Qed.

Lemma draw_pads_advance {A} (cps : list (list A * Z)) :
  forall g ps g', draw_pads cps g = Ok (ps, g') -> g' = advance (draws cps) g.
Proof.
  induction cps as [|[c n] cps IH]; intros g ps g' E.
  - injection E as _ <-. symmetry. apply advance_0.
  - pose proof (draw_pads_inv _ _ E) as Hne.
    inversion Hne as [|? ? Hc _]; subst. simpl in Hc.
    rewrite draw_pads_cons in E.
    destruct (random_choice_nonempty n g Hc) as (p & Ep & _).
    rewrite Ep in E.
    destruct (draw_pads cps (advance (Z.to_N n) g)) as [[ps' g'']|] eqn:E';
      [|discriminate].
    injection E as _ <-.
    rewrite (IH _ _ _ E'), advance_advance. reflexivity.
Qed.

(** X1: [random_choice] on a tensor without rows raises whatever the
    number of samples asked for; on a tensor with rows it returns exactly
    n rows, each a row of x, and uses n draws of the generator. *)
Theorem random_choice_rows {A} (x : list A) (n : Z) (g : generator) :
  0 <= n ->
  match x with
  | [] => random_choice x n g = Err EmptyRange
  | _ :: _ =>
      exists rows,
        random_choice x n g = Ok (rows, advance (Z.to_N n) g) /\
        length rows = Z.to_nat n /\
        Forall (fun r => In r x) rows
  end.
Proof.
  intros _. destruct x as [|a x]; [reflexivity|].
  apply random_choice_nonempty. discriminate.
Qed.

Lemma pads_of_counts (counts : list Z) (m : Z) :
  Forall (fun c => c <= m) counts ->
  Forall2 (fun c p => 0 <= p /\ c + p = m) counts (map (fun c => m - c) counts).
Proof. induction 1; simpl; constructor; auto. lia. Qed.

(** X2: for batch_size >= 1 and whatever positions the search routine
    returns, one for each entry of its second operand,
    [compute_pad_amounts] returns batch_size counts and batch_size pads;
    every pad is non-negative, count + pad is the same number (the largest
    count) for every batch, and the pad of some batch is 0. *)
Theorem compute_pad_amounts_levels (batch_index : list Z) (batch_size : Z) :
  searchsorted_shape ->
  1 <= batch_size ->
  exists batch_count pad m,
    compute_pad_amounts batch_index batch_size = Ok (batch_count, pad) /\
    length batch_count = Z.to_nat batch_size /\
    length pad = Z.to_nat batch_size /\
    In m batch_count /\
    Forall2 (fun c p => 0 <= p /\ c + p = m) batch_count pad /\
    In 0 pad.
Proof.
  intros Hsh HB.
  destruct (compute_pad_amounts batch_index batch_size) as [[counts pad]|e] eqn:E.
  - destruct (@compute_pad_amounts_inv batch_index batch_size counts pad Hsh E)
      as [Hlc Hlp].
    revert E. unfold compute_pad_amounts, arange.
    destruct (Z.ltb_spec (batch_size + 1) 0); [discriminate|]. cbv zeta.
    destruct (tensor_max _) as [m|] eqn:Em; [|discriminate].
    intros E. injection E as Ec Ep.
    rewrite Ec in Em, Ep. apply tensor_max_spec in Em as [Hin Hle].
    exists counts, pad, m. subst pad.
    split; [reflexivity|]. split; [assumption|]. split; [assumption|].
    split; [assumption|]. split.
    + now apply pads_of_counts.
    + apply in_map_iff. exists m. split; [lia|assumption].
  - exfalso. revert E. unfold compute_pad_amounts, arange.
    destruct (Z.ltb_spec (batch_size + 1) 0); [lia|]. cbv zeta.
    match goal with
    | |- context [tensor_max ?l] =>
        destruct (@tensor_max_nonempty l) as [m Hm]; [|now rewrite Hm]
    end.
    intros Hnil. apply (f_equal (@length Z)) in Hnil.
    rewrite length_map, length_combine, length_tl, removelast_firstn_len,
      length_firstn, Hsh, length_map, ids_length in Hnil.
    simpl in Hnil. lia.
Qed.

(** X3: with batch_size <= 0 [compute_pad_amounts], and with it
    [pad_batch], raises on every input: [arange] rejects a negative end,
    and the maximum of no count at all does not exist. *)
Theorem pad_batch_no_batches {A} (x : list A) (batch_index : list Z)
        (batch_size : Z) (g : generator) :
  searchsorted_shape ->
  batch_size <= 0 ->
  let e := if batch_size <? -1 then InvalidRange else EmptyReduction in
  compute_pad_amounts batch_index batch_size = Err e /\
  pad_batch x batch_index batch_size g = Err e.
Proof.
  intros Hsh HB e.
  assert (E : compute_pad_amounts batch_index batch_size = Err e).
  { unfold compute_pad_amounts, arange, e.
    destruct (Z.ltb_spec batch_size (-1));
      destruct (Z.ltb_spec (batch_size + 1) 0); try lia; [reflexivity|].
    cbv zeta.
    match goal with
    | |- context [tensor_max ?l] => assert (Hnil : l = [])
    end.
    { apply length_zero_iff_nil.
      rewrite length_map, length_combine, length_tl, removelast_firstn_len,
        length_firstn, Hsh, length_map, ids_length.
      lia. }
    now rewrite Hnil. }
  split; [exact E|].
  unfold pad_batch. destruct (Z.eqb_spec batch_size 1); [lia|].
  unfold bind, lift. now rewrite E.
Qed.





Lemma stack_inv {A} (l r : list (list A)) :
  stack l = Ok r ->
  r = l /\ exists k, Forall (fun c => length c = k) l.
Proof.
  destruct l as [|c rest]; simpl; [discriminate|].
  destruct (forallb _ rest) eqn:E; [|discriminate].
  intros [= <-]. split; [reflexivity|]. exists (length c).
  constructor; [reflexivity|].
  apply Forall_forall. intros c' Hc'. rewrite forallb_forall in E.
  now apply Nat.eqb_eq, E.
Qed.

Lemma compute_pad_amounts_pad (bi : list Z) (B : Z) (counts pads : list Z) :
  compute_pad_amounts bi B = Ok (counts, pads) ->
  exists m, tensor_max counts = Ok m /\ pads = map (fun c => m - c) counts.
Proof.
  unfold compute_pad_amounts. destruct (arange (B + 1)); [|discriminate].
  cbv zeta. destruct (tensor_max _) as [m|] eqn:Em; [|discriminate].
  intros [= <- <-]. eauto.
Qed.

Lemma pad_batch_steps {A} (x : list A) (bi : list Z) (B : Z) g res g' :
  B <> 1 ->
  pad_batch x bi B g = Ok (res, g') ->
  exists counts pads chunks ps,
    compute_pad_amounts bi B = Ok (counts, pads) /\
    split x counts = Ok chunks /\
    draw_pads (combine chunks pads) g = Ok (ps, g') /\
    stack (map (fun '(c, p) => c ++ p) (combine chunks ps)) = Ok res.
Proof.
  intros HB. unfold pad_batch. destruct (Z.eqb_spec B 1); [contradiction|].
  unfold bind, lift.
  destruct (compute_pad_amounts bi B) as [[counts pads]|] eqn:E1; [|discriminate].
  destruct (split x counts) as [chunks|] eqn:E2; [|discriminate].
  destruct (draw_pads _ g) as [[ps gp]|] eqn:E3; [|discriminate].
  destruct (stack _) as [r|] eqn:E4; [|discriminate].
  intros [= <- <-]. exists counts, pads, chunks, ps. auto.
Qed.

Lemma draw_pads_rows {A} (cps : list (list A * Z)) g ps g' :
  draw_pads cps g = Ok (ps, g') ->
  Forall2 (fun cn p => length p = Z.to_nat (snd cn) /\
                       Forall (fun r => In r (fst cn)) p) cps ps.
Proof.
  intros E. pose proof (draw_pads_inv _ _ E) as Hne.
  destruct (draw_pads_ok Hne g) as (ps' & g'' & E' & H).
  rewrite E in E'. now injection E' as -> _.
Qed.

Lemma chunks_of_lengths {A} (sizes : list nat) :
  forall x : list A,
    (list_sum sizes <= length x)%nat ->
    Forall2 (fun n c => length c = n) sizes (chunks_of sizes x).
Proof.
  induction sizes as [|n sizes IH]; intros x H; simpl in *; constructor.
  - apply firstn_length_le. lia.
  - apply IH. rewrite length_skipn. lia.
Qed.

Lemma unpad {A} (sizes : list nat) (chunks : list (list A)) :
  Forall2 (fun n c => length c = n) sizes chunks ->
  forall ps,
    length ps = length chunks ->
    map (fun '(n, s) => firstn n s)
        (combine sizes (map (fun '(c, p) => c ++ p) (combine chunks ps)))
    = chunks.
Proof.
  induction 1 as [|n c sizes chunks Hn _ IH]; intros [|p ps] Hl; simpl in Hl;
    try discriminate; [reflexivity|].
  cbn [combine map]. rewrite IH by lia. f_equal.
  rewrite <- Hn, firstn_app, firstn_all, Nat.sub_diag. cbn [firstn].
  apply app_nil_r.
Qed.

(** X5: whatever the search routine returns, a run of [pad_batch] with
    batch_size <> 1 that returns has only moved rows of x around: all
    slices have one length, every row of every slice is a row of x, and
    cutting slice i back to its first batch_count[i] rows and joining the
    pieces gives x again. *)
Theorem pad_batch_unpad {A} (x : list A) (batch_index : list Z) (batch_size : Z)
        (g g' : generator) (res : list (list A)) :
  batch_size <> 1 ->
  pad_batch x batch_index batch_size g = Ok (res, g') ->
  exists batch_count pad,
    compute_pad_amounts batch_index batch_size = Ok (batch_count, pad) /\
    length res = length batch_count /\
    (exists k, Forall (fun slice => length slice = k) res) /\
    Forall (fun slice => Forall (fun r => In r x) slice) res /\
    concat (map (fun '(n, slice) => firstn n slice)
                (combine (map Z.to_nat batch_count) res)) = x.
Proof.
  intros HB Hrun.
  apply pad_batch_steps in Hrun as (counts & pads & chunks & ps & Hcpa & Hsp & Hd & Hst);
    [|assumption].
  apply stack_inv in Hst as [-> Hk].
  apply split_inv in Hsp as [-> Hsum].
  destruct (compute_pad_amounts_pad _ _ Hcpa) as (m & _ & ->).
  pose proof (draw_pads_rows _ _ Hd) as Hrows.
  pose proof (Forall2_length Hrows) as Hlen.
  rewrite length_combine, chunks_of_length, !length_map, Nat.min_id in Hlen.
  exists counts, (map (fun c => m - c) counts).
  split; [assumption|]. split.
  { rewrite length_map, length_combine, chunks_of_length, length_map. lia. }
  split; [assumption|]. split.
  - apply Forall_forall. intros slice Hin.
    apply in_map_iff in Hin as ([c p] & <- & Hin).
    apply Forall_forall. intros r Hr. apply in_app_or in Hr.
    assert (Hchunk : forall c', In c' (chunks_of (map Z.to_nat counts) x) ->
                                forall r', In r' c' -> In r' x).
    { intros c' Hc' r' Hr'. rewrite <- (concat_chunks_of _ _ Hsum).
      apply in_concat. eauto. }
    destruct Hr as [Hr|Hr].
    + apply (Hchunk c); [|assumption]. now apply in_combine_l in Hin.
    + apply in_combine_r in Hin.
      apply Forall2_Forall_r in Hrows. rewrite Forall_forall in Hrows.
      destruct (Hrows p Hin) as ([c' n'] & Hcn & _ & Hp).
      rewrite Forall_forall in Hp. apply (Hchunk c').
      * now apply in_combine_l in Hcn.
      * now apply Hp.
  - rewrite unpad.
    + now apply concat_chunks_of.
    + apply chunks_of_lengths. lia.
    + rewrite chunks_of_length, length_map. lia.
Qed.

Lemma draws_lengths {A} (cps : list (list A * Z)) (ps : list (list A)) :
  Forall2 (fun cn p => length p = Z.to_nat (snd cn) /\
                       Forall (fun r => In r (fst cn)) p) cps ps ->
  draws cps = N.of_nat (length (concat ps)).
Proof.
  induction 1 as [|[c n] p cps ps [Hl _] _ IH]; [reflexivity|].
  cbn [draws fold_right concat snd]. fold (draws cps).
  simpl in Hl. rewrite IH, length_app, Hl. lia.
Qed.

Lemma padded_length {A} (chunks ps : list (list A)) :
  length chunks = length ps ->
  length (concat (map (fun '(c, p) => c ++ p) (combine chunks ps)))
  = (length (concat chunks) + length (concat ps))%nat.
Proof.
  revert ps. induction chunks as [|c chunks IH]; intros [|p ps] H; simpl in H;
    try discriminate; [reflexivity|].
  cbn [combine map concat]. rewrite !length_app, IH by lia. lia.
Qed.

Lemma pad_batch_draws {A} (x : list A) (bi : list Z) (B : Z) g res g' :
  B <> 1 ->
  pad_batch x bi B g = Ok (res, g') ->
  exists extra,
    length (concat res) = (length x + extra)%nat /\
    g' = advance (N.of_nat extra) g.
Proof.
  intros HB Hrun.
  apply pad_batch_steps in Hrun as (counts & pads & chunks & ps & Hcpa & Hsp & Hd & Hst);
    [|assumption].
  apply stack_inv in Hst as [-> _].
  apply split_inv in Hsp as [-> Hsum].
  destruct (compute_pad_amounts_pad _ _ Hcpa) as (m & _ & ->).
  pose proof (draw_pads_rows _ _ Hd) as Hrows.
  pose proof (Forall2_length Hrows) as Hlen.
  rewrite length_combine, chunks_of_length, !length_map, Nat.min_id in Hlen.
  exists (length (concat ps)). split.
  - rewrite padded_length by (rewrite chunks_of_length, length_map; lia).
    now rewrite (concat_chunks_of _ _ Hsum).
  - now rewrite (draw_pads_advance _ _ Hd), (draws_lengths Hrows).
Qed.

(** X7: a run of [pad_batch] with batch_size <> 1 takes from the
    generator one draw for each padded row, no more: the rows of the
    result beyond those of x. *)
Theorem pad_batch_one_draw_per_pad {A} (x : list A) (batch_index : list Z)
        (batch_size : Z) (g g' : generator) (res : list (list A)) :
  batch_size <> 1 ->
  pad_batch x batch_index batch_size g = Ok (res, g') ->
  (length x <= length (concat res))%nat /\
  g' = advance (N.of_nat (length (concat res) - length x)) g.
Proof.
  intros HB Hrun.
  destruct (@pad_batch_draws A x batch_index batch_size g res g' HB Hrun)
    as (extra & Hl & ->).
  split; [lia|]. f_equal. lia.
Qed.

Lemma Forall2_impl_in {X Y} (P Q : X -> Y -> Prop) (l : list X) (l' : list Y) :
  Forall2 P l l' ->
  (forall a b, In a l -> P a b -> Q a b) ->
  Forall2 Q l l'.
Proof.
  induction 1 as [|a b l l' Hab _ IH]; intros H; constructor.
  - apply H; [now left|assumption].
  - apply IH. intros a' b' Ha'. apply H. now right.
Qed.

Lemma Forall2_eq_map {X Y} (f : X -> Y) (l : list X) (l' : list Y) :
  Forall2 (fun a b => b = f a) l l' -> l' = map f l.
Proof. induction 1; simpl; congruence. Qed.

(** X6: when every batch of [0, batch_size) has the same number c > 0 of
    rows in a sorted batch index, [pad_batch] pads nothing: it returns the
    per-batch chunks themselves and leaves the generator as it was, so
    the result does not depend on the random state. *)
Theorem pad_batch_balanced {A} (x : list A) (batch_index : list Z)
        (batch_size c : Z) (g : generator) :
  searchsorted_contract ->
  1 < batch_size < 2 ^ 31 ->
  length x = length batch_index ->
  Sorted Z.le batch_index ->
  Forall (fun y => 0 <= y < batch_size) batch_index ->
  0 < c ->
  (forall i, 0 <= i < batch_size -> count_eq batch_index i = c) ->
  pad_batch x batch_index batch_size g
  = Ok (map (batch_rows x batch_index) (ids batch_size), g).
Proof.
  intros Hc HB Hlen Hs Hr Hpos Hbal.
  assert (Hall : forall b, 0 <= b < batch_size -> In b batch_index).
  { intros b Hb. apply (count_occ_In Z.eq_dec).
    specialize (Hbal b Hb). unfold count_eq in Hbal. lia. }
  destruct (@pad_batch_sorted A x batch_index batch_size g Hc HB Hlen Hs Hr Hall)
    as (res & g' & m & Hrun & Hm & Hslices).
  assert (Hids : forall i, In i (ids batch_size) -> 0 <= i < batch_size).
  { pose proof (ids_bounds batch_size) as H. now rewrite Forall_forall in H. }
  assert (Em : m = c).
  { apply tensor_max_spec in Hm as [Hin _].
    apply in_map_iff in Hin as (j & <- & Hj). apply Hbal, Hids, Hj. }
  subst m.
  assert (Eres : res = map (batch_rows x batch_index) (ids batch_size)).
  { apply Forall2_eq_map.
    eapply Forall2_impl_in; [exact Hslices|]. simpl.
    intros i slice Hi (p & -> & Hl & _).
    rewrite (Hbal i (Hids i Hi)), Z.sub_diag in Hl.
    destruct p; [apply app_nil_r|discriminate]. }
  rewrite Hrun. f_equal. f_equal; [exact Eres|].
  destruct (@pad_batch_draws A x batch_index batch_size g res g') as (extra & Hl & ->);
    [lia|exact Hrun|].
  assert (Hx : length (concat res) = length x).
  { subst res. pose proof (split_sorted x Hs Hr Hlen) as Hsp.
    apply split_inv in Hsp as [E Hsum]. rewrite E.
    now rewrite (concat_chunks_of _ _ Hsum). }
  replace extra with 0%nat by lia. apply advance_0.
Qed.

Lemma batch_rows_map {X Y} (f : X -> Y) (x : list X) (b : list Z) (i : Z) :
  batch_rows (map f x) b i = map f (batch_rows x b i).
Proof.
  unfold batch_rows. revert b.
  induction x as [|a x IH]; intros [|z b]; simpl; try reflexivity.
  destruct (z =? i); simpl; now rewrite IH.
Qed.

Lemma slice_of_batch {A} (x : list A) (bi : list Z) (B m : Z) (res : list (list A)) :
  length x = length bi ->
  tensor_max (map (count_eq bi) (ids B)) = Ok m ->
  Forall2 (fun i slice =>
             exists p, slice = batch_rows x bi i ++ p /\
                       length p = Z.to_nat (m - count_eq bi i) /\
                       Forall (fun r => In r (batch_rows x bi i)) p)
          (ids B) res ->
  forall i, 0 <= i < B ->
    length (nth (Z.to_nat i) res []) = Z.to_nat m /\
    firstn (Z.to_nat (count_eq bi i)) (nth (Z.to_nat i) res [])
    = batch_rows x bi i.
Proof.
  intros Hlen Hm Hslices i Hi.
  assert (Hk : (Z.to_nat i < length (ids B))%nat) by (rewrite ids_length; lia).
  pose proof (Forall2_nth 0 [] Hslices Hk) as (p & Hp & Hl & _).
  rewrite ids_nth, Z2Nat.id in Hp, Hl by (rewrite ?ids_length in Hk; lia).
  assert (Hn : length (batch_rows x bi i) = Z.to_nat (count_eq bi i)).
  { rewrite batch_rows_length by assumption. unfold count_eq.
    now rewrite Nat2Z.id. }
  assert (Hci : count_eq bi i <= m).
  { apply tensor_max_spec in Hm as [_ Hle].
    rewrite Forall_forall in Hle. apply Hle. apply in_map.
    unfold ids. apply in_map_iff. exists (Z.to_nat i).
    split; [lia|]. apply in_seq. lia. }
  rewrite Hp. split.
  - rewrite length_app, Hl, Hn. pose proof (count_eq_nonneg bi i). lia.
  - rewrite <- Hn, firstn_app, firstn_all, Nat.sub_diag. cbn [firstn].
    apply app_nil_r.
Qed.

(** X8: on a volume whose batches are sorted, in range and none empty,
    [to_global] returns coordinates and features padded to the same
    (batch_size, max_count) layout, and on the first batch_count[i] rows
    of slice i they stay aligned: row k of the coordinates is the metric
    position of the voxel whose features are row k of the features. *)
Theorem to_global_aligned (self : SparseCNN F T) (stride : F)
        (volume : SparseConvTensor F) (v0 v1 v2 o0 o1 o2 : F) (g : generator) :
  searchsorted_contract ->
  base_voxel_size self = [v0; v1; v2] ->
  voxel_offset self = [o0; o1; o2] ->
  Forall (fun row => length row = 4%nat) (indices volume) ->
  length (features volume) = length (indices volume) ->
  let batch_index := map (fun row => nth 0 row 0) (indices volume) in
  let B := batch_size volume in
  1 < B < 2 ^ 31 ->
  Sorted Z.le batch_index ->
  Forall (fun y => 0 <= y < B) batch_index ->
  (forall b, 0 <= b < B -> In b batch_index) ->
  exists xyz feature g' max_count,
    to_global self stride volume g = Ok ((xyz, feature), g') /\
    length xyz = Z.to_nat B /\
    length feature = Z.to_nat B /\
    forall i, 0 <= i < B ->
      let n := Z.to_nat (count_eq batch_index i) in
      let k := Z.to_nat i in
      length (nth k xyz []) = Z.to_nat max_count /\
      length (nth k feature []) = Z.to_nat max_count /\
      firstn n (nth k xyz [])
      = map (metric [v0; v1; v2] [o0; o1; o2] stride)
            (batch_rows (indices volume) batch_index i) /\
      firstn n (nth k feature []) = batch_rows (features volume) batch_index i.
Proof.
  intros Hc Hv Ho Hrows Hfeat batch_index B HB Hs Hr Hall.
  assert (Hlx : length (map (metric [v0; v1; v2] [o0; o1; o2] stride)
                            (indices volume)) = length batch_index).
  { unfold batch_index. now rewrite !length_map. }
  assert (Hlf : length (features volume) = length batch_index).
  { unfold batch_index. now rewrite length_map. }
  destruct (@pad_batch_sorted _ _ batch_index B g Hc HB Hlx Hs Hr Hall)
    as (xyz & g1 & m & Hrun1 & Hm & Hs1).
  destruct (@pad_batch_sorted _ _ batch_index B g1 Hc HB Hlf Hs Hr Hall)
    as (feature & g2 & m' & Hrun2 & Hm' & Hs2).
  rewrite Hm in Hm'. injection Hm' as <-.
  exists xyz, feature, g2, m.
  split.
  { rewrite (to_global_eq self stride volume Hv Ho Hrows).
    fold batch_index. fold B. unfold bind. now rewrite Hrun1, Hrun2. }
  split; [apply Forall2_length in Hs1; now rewrite ids_length in Hs1|].
  split; [apply Forall2_length in Hs2; now rewrite ids_length in Hs2|].
  intros i Hi n k.
  destruct (@slice_of_batch _ _ batch_index B m xyz Hlx Hm Hs1 i Hi) as [L1 F1].
  destruct (@slice_of_batch _ _ batch_index B m feature Hlf Hm Hs2 i Hi) as [L2 F2].
  rewrite batch_rows_map in F1. auto.
Qed.

Lemma broadcast_rows_column (op : F -> F -> F) (a : list (list F)) (occ : list Z) :
  broadcast_rows op a (map (fun o => [of_int o]) occ) =
  if Nat.eqb (length a) (length occ)
  then Ok (map (fun ro => map (fun u => op u (of_int (snd ro))) (fst ro))
               (combine a occ))
  else match a, occ with
       | [r], _ => Ok (map (fun o => map (fun u => op u (of_int o)) r) occ)
       | _, [o] => Ok (map (fun r => map (fun u => op u (of_int o)) r) a)
       | _, _ => Err ShapeMismatch
       end.
Proof.
  unfold broadcast_rows. rewrite length_map.
  destruct (Nat.eqb (length a) (length occ)) eqn:E.
  - clear E. revert occ. induction a as [|r a IH]; intros [|o occ];
      try reflexivity.
    cbn [map combine map_result]. rewrite broadcast_scalar.
    specialize (IH occ). cbn [map_result] in IH. now rewrite IH.
  - destruct a as [|r [|r' a]].
    + destruct occ as [|o [|o' occ]]; try discriminate; reflexivity.
    + clear E. induction occ as [|o occ IH]; [reflexivity|].
      cbn [map map_result] in *. rewrite broadcast_scalar.
      destruct occ as [|o' occ]; [reflexivity|].
      now rewrite IH.
    + destruct occ as [|o [|o' occ]]; try reflexivity.
      exact (@map_result_ok _ _ (fun r0 => broadcast op r0 [of_int o])
                            (fun r0 => map (fun u => op u (of_int o)) r0)
                            (r :: r' :: a)
                            (fun r0 _ => broadcast_scalar op r0 (of_int o))).
Qed.

(** X9: [VoxelFeatureExtractor.forward] relies on broadcasting.  When the
    occupancy vector is neither of the length N of the feature tensor nor
    of length 1, and N is not 1, it raises; a single occupancy divides
    every voxel; and a single voxel with M occupancies returns M rows, one
    per occupancy, not N. *)
Theorem VoxelFeatureExtractor_broadcast (feature : Tensor3 F) (occupancy : list Z)
        (N K C : nat) :
  shape3 feature = (N, K, C) ->
  length (data3 feature) = N ->
  (N <> length occupancy -> N <> 1%nat -> length occupancy <> 1%nat ->
   VoxelFeatureExtractor_forward feature occupancy = Err ShapeMismatch) /\
  (forall o, occupancy = [o] ->
     VoxelFeatureExtractor_forward feature occupancy
     = Ok (map (fun row => map (fun u => fdiv u (of_int o)) row)
               (sum_dim1 feature))) /\
  (forall voxel, data3 feature = [voxel] ->
     VoxelFeatureExtractor_forward feature occupancy
     = Ok (map (fun o => map (fun c => fdiv (fsum (map (fun point => nth c point (of_int 0))
                                                       voxel))
                                            (of_int o))
                             (seq 0 C))
               occupancy)).
Proof.
  intros Hshape HN.
  unfold VoxelFeatureExtractor_forward. rewrite broadcast_rows_column.
  pose proof (sum_dim1_length feature) as Hl. rewrite HN in Hl.
  split; [|split].
  - intros H1 H2 H3. rewrite Hl.
    destruct (Nat.eqb_spec N (length occupancy)); [contradiction|].
    destruct (sum_dim1 feature) as [|r [|r' a]]; simpl in Hl;
      [|congruence|];
      destruct occupancy as [|o [|o' occ]]; simpl in *; congruence.
  - intros o ->. rewrite Hl. cbn [length].
    destruct (Nat.eqb_spec N 1) as [E|E].
    + rewrite E in Hl. destruct (sum_dim1 feature) as [|r [|r' a]];
        try discriminate. reflexivity.
    + destruct (sum_dim1 feature) as [|r [|r' a]]; simpl in Hl;
        [reflexivity|congruence|reflexivity].
  - intros voxel Hd. unfold sum_dim1 in *. rewrite Hshape in *. rewrite Hd in *.
    cbn [map length] in *.
    destruct (Nat.eqb_spec 1 (length occupancy)) as [E|E].
    + destruct occupancy as [|o [|o' occ]]; try discriminate.
      cbn [combine map fst snd]. now rewrite map_map.
    + f_equal. apply map_ext. intros o. now rewrite map_map.
Qed.

(** *** Initialisation of arbitrary module trees *)

Lemma nn_Module_induction (P : nn_Module T -> Prop) :
  (forall p w b, P (SubMConv3d p w b)) ->
  (forall p w b, P (SparseConv3d p w b)) ->
  (forall w b, P (Conv2d w b)) ->
  (forall p w b, P (BatchNorm1d p w b)) ->
  P ReLU ->
  (forall cs, Forall P cs -> P (SparseSequential cs)) ->
  forall m, P m.
Proof.
  intros H1 H2 H3 H4 H5 H6. fix IH 1.
  intros [p w b|p w b|w b|p w b| |cs];
    [apply H1|apply H2|apply H3|apply H4|apply H5|].
  apply H6. induction cs as [|c cs IHcs]; constructor; [apply IH|apply IHcs].
Qed.


Lemma mapM_inv {X Y} (f : X -> M Y) (l : list X) :
  forall g l' g',
    mapM f l g = Ok (l', g') ->
    Forall2 (fun a b => exists g1 g2, f a g1 = Ok (b, g2)) l l'.
Proof.
  induction l as [|a l IH]; intros g l' g' E.
  - injection E as <- _. constructor.
  - cbn [mapM] in E. unfold bind at 1 in E.
    destruct (f a g) as [[b g1]|] eqn:Ea; [|discriminate].
    unfold bind at 1 in E. fold (mapM f l) in E.
    destruct (mapM f l g1) as [[bs g2]|] eqn:El; [|discriminate].
    injection E as <- _. constructor; eauto.
Qed.




Lemma init_module_flags (m : nn_Module T) g m' g' :
  init_module m g = Ok (m', g') ->
  map (@requires_grad T) (parameters m') = map (@requires_grad T) (parameters m) /\
  length (modules m') = length (modules m).
Proof.
  unfold init_module.
  destruct m as [p w b|p w b|w b|p w b| |cs]; cbn [isinstance_Conv2d isinstance_BatchNorm];
    try (intros [= <- _]; split; reflexivity).
  unfold kaiming_init. cbn [get_weight]. unfold bind.
  destruct (kaiming_normal_ (data w) g) as [[d g1]|]; [|discriminate].
  intros [= <- _]. destruct b as [b|]; split; reflexivity.
Qed.

Lemma init_tree_flags (m : nn_Module T) :
  forall g m' g',
    init_tree m g = Ok (m', g') ->
    map (@requires_grad T) (parameters m') = map (@requires_grad T) (parameters m) /\
    length (modules m') = length (modules m).
Proof.
  induction m as [p w b|p w b|w b|p w b| |cs IH] using nn_Module_induction;
    intros g m' g' E;
    try (now apply (@init_module_flags _ g m' g')).
  cbn [init_tree] in E. unfold bind in E.
  destruct (mapM init_tree cs g) as [[cs' g1]|] eqn:Em; [|discriminate].
  injection E as <- _. apply mapM_inv in Em.
  cbn [parameters modules length]. rewrite !flat_map_concat_map, !concat_map.
  assert (Hboth : map (fun c => map (@requires_grad T) (parameters c)) cs'
                  = map (fun c => map (@requires_grad T) (parameters c)) cs /\
                  length (flat_map (@modules T) cs') = length (flat_map (@modules T) cs)).
  { induction Em as [|c c' cs cs' (g1' & g2' & Hc) _ IHEm]; [split; reflexivity|].
    inversion IH as [|? ? IHc IHcs]; subst.
    destruct (IHc _ _ _ Hc) as [Hp Hm]. destruct (IHEm IHcs) as [Hps Hms].
    cbn [map flat_map]. rewrite !length_app. split; congruence. }
  destruct Hboth as [Hp Hm]. rewrite !map_map. split; [now f_equal|].
  rewrite <- !flat_map_concat_map. now f_equal.
Qed.

(** X11: on any network, also one with nn.Conv2d modules, a run of
    [init_weights] that returns keeps the configuration, the number of
    modules and, parameter by parameter, every requires_grad flag: it only
    writes parameter data. *)
Theorem init_weights_keeps_flags (self self' : SparseCNN F T) (g g' : generator) :
  init_weights self g = Ok (self', g') ->
  cfg self' = cfg self /\
  grid_shape self' = grid_shape self /\
  base_voxel_size self' = base_voxel_size self /\
  voxel_offset self' = voxel_offset self /\
  length (SparseCNN_modules self') = length (SparseCNN_modules self) /\
  map (@requires_grad T)
      (flat_map (@parameters T)
                [block1 self'; block2 self'; block3 self'; block4 self'])
  = map (@requires_grad T)
        (flat_map (@parameters T)
                  [block1 self; block2 self; block3 self; block4 self]).
Proof.
  unfold init_weights, bind. intros E.
  destruct (init_tree (block1 self) g) as [[b1 g1]|] eqn:E1; [|discriminate].
  destruct (init_tree (block2 self) g1) as [[b2 g2]|] eqn:E2; [|discriminate].
  destruct (init_tree (block3 self) g2) as [[b3 g3]|] eqn:E3; [|discriminate].
  destruct (init_tree (block4 self) g3) as [[b4 g4]|] eqn:E4; [|discriminate].
  injection E as <- _.
  destruct (@init_tree_flags _ _ _ _ E1) as [P1 M1].
  destruct (@init_tree_flags _ _ _ _ E2) as [P2 M2].
  destruct (@init_tree_flags _ _ _ _ E3) as [P3 M3].
  destruct (@init_tree_flags _ _ _ _ E4) as [P4 M4].
  do 4 (split; [reflexivity|]).
  unfold SparseCNN_modules. cbn [flat_map block1 block2 block3 block4].
  rewrite !length_app, !map_app. split; congruence.
Qed.

(** *** The draws of [to_global] *)

Lemma map_result_length {X Y} (f : X -> result Y) (l : list X) :
  forall l', map_result f l = Ok l' -> length l' = length l.
Proof.
  induction l as [|a l IH]; intros l' E; simpl in E.
  - now injection E as <-.
  - destruct (f a) as [b|]; [|discriminate].
    destruct (map_result f l) as [bs|]; [|discriminate].
    injection E as <-. simpl. now rewrite (IH bs eq_refl).
Qed.

Lemma draws_combine {X Y} (l : list (list X)) (l' : list (list Y)) :
  length l = length l' ->
  forall pads, draws (combine l pads) = draws (combine l' pads).
Proof.
  revert l'. induction l as [|c l IH]; intros [|c' l'] H pads;
    try discriminate; [reflexivity|].
  destruct pads as [|p pads]; [reflexivity|].
  cbn [combine draws fold_right snd]. f_equal. apply IH. now injection H.
Qed.

Lemma pad_batch_pads {A} (x : list A) (bi : list Z) (B : Z) g res g' :
  B <> 1 ->
  pad_batch x bi B g = Ok (res, g') ->
  exists counts pads,
    compute_pad_amounts bi B = Ok (counts, pads) /\
    length (concat res)
    = (length x + N.to_nat (draws (combine (map (fun _ => @nil A) counts) pads)))%nat /\
    g' = advance (draws (combine (map (fun _ => @nil A) counts) pads)) g.
Proof.
  intros HB Hrun.
  apply pad_batch_steps in Hrun as (counts & pads & chunks & ps & Hcpa & Hsp & Hd & Hst);
    [|assumption].
  apply stack_inv in Hst as [-> _].
  apply split_inv in Hsp as [-> Hsum].
  pose proof (draw_pads_rows _ _ Hd) as Hrows.
  pose proof (Forall2_length Hrows) as Hlen.
  assert (Hdr : draws (combine (map (fun _ => @nil A) counts) pads)
                = N.of_nat (length (concat ps))).
  { rewrite <- (draws_lengths Hrows). apply draws_combine.
    now rewrite chunks_of_length, !length_map. }
  exists counts, pads. split; [assumption|]. rewrite Hdr, Nnat.Nat2N.id. split.
  - destruct (compute_pad_amounts_pad _ _ Hcpa) as (m & _ & Hp).
    rewrite length_combine, chunks_of_length, Hp, !length_map, Nat.min_id in Hlen.
    rewrite padded_length by (rewrite chunks_of_length, length_map; lia).
    now rewrite (concat_chunks_of _ _ Hsum).
  - now rewrite (draw_pads_advance _ _ Hd), (draws_lengths Hrows).
Qed.

(** X12: [to_global] pads the coordinates and the features by two
    separate calls of [pad_batch], each with draws of its own: a run that
    returns for batch_size <> 1 has added the same number of rows to both
    and has consumed two random indices per added row, those of the
    features after those of the coordinates. *)
Theorem to_global_draws_twice (self : SparseCNN F T) (stride : F)
        (volume : SparseConvTensor F) (g g' : generator)
        (xyz feature : list (list (list F))) :
  batch_size volume <> 1 ->
  to_global self stride volume g = Ok ((xyz, feature), g') ->
  exists extra : nat,
    length (concat xyz) = (length (indices volume) + extra)%nat /\
    length (concat feature) = (length (features volume) + extra)%nat /\
    g' = advance (N.of_nat (2 * extra)) g /\
    exists batch_index,
      pad_batch (features volume) batch_index (batch_size volume)
                (advance (N.of_nat extra) g) = Ok (feature, g').
Proof.
  intros HB. unfold to_global, bind, lift.
  destruct (map_result _ (map (@rev Z) (indices volume))) as [xyz1|] eqn:E1;
    [|discriminate].
  destruct (map_result _ xyz1) as [xyz2|] eqn:E2; [|discriminate].
  destruct (map_result last_column _) as [bi|] eqn:E3; [|discriminate].
  destruct (pad_batch xyz2 bi (batch_size volume) g) as [[xyz' g1]|] eqn:P1;
    [|discriminate].
  destruct (pad_batch (features volume) bi (batch_size volume) g1)
    as [[feature' g2]|] eqn:P2; [|discriminate].
  intros [= -> -> ->].
  apply map_result_length in E1, E2. rewrite length_map in E1.
  destruct (@pad_batch_pads _ _ _ _ _ _ _ HB P1) as (counts & pads & C1 & L1 & G1).
  destruct (@pad_batch_pads _ _ _ _ _ _ _ HB P2) as (counts' & pads' & C2 & L2 & G2).
  rewrite C1 in C2. injection C2 as <- <-.
  set (d := draws (combine (map (fun _ => @nil (list F)) counts) pads)) in *.
  exists (N.to_nat d). rewrite Nnat.N2Nat.id.
  split; [rewrite L1; congruence|]. split; [exact L2|]. split.
  - rewrite G2, G1, advance_advance. f_equal. lia.
  - exists bi. now rewrite <- G1.
Qed.

(** *** More on [init_weights] *)






(** *** The constructor calls of [SparseCNN.__init__] *)


(** *** The volumes [forward] converts *)

(** X16: [forward] pairs cfg.STRIDES with the input tensor and the
    outputs of blocks 1 to 3 by zip, so that a run that returns has
    converted as many volumes as the shorter of the two lists has entries,
    never more than four; with no stride configured nothing is converted
    and no random index is drawn. *)
Theorem forward_zip (self : SparseCNN F T) (feats : list (list F))
        (coordinates : list (list Z)) (B : Z) (g g' : generator)
        (x : list (list (list (list F)) * list (list (list F))))
        (x4 : SparseConvTensor F) :
  forward self feats coordinates B g = Ok ((x, x4), g') ->
  length x = Nat.min (length (STRIDES (cfg self))) 4 /\
  (STRIDES (cfg self) = [] -> x = [] /\ g' = g).
Proof.
  unfold forward, bind, lift.
  destruct (Module_forward (block1 self) _) as [x1|]; [|discriminate].
  destruct (Module_forward (block2 self) x1) as [x2|]; [|discriminate].
  destruct (Module_forward (block3 self) x2) as [x3|]; [|discriminate].
  destruct (Module_forward (block4 self) x3) as [x4'|]; [|discriminate].
  destruct (mapM _ _ g) as [[vs g1]|] eqn:Em; [|discriminate].
  intros [= -> _ ->]. split.
  - apply mapM_inv in Em. apply Forall2_length in Em.
    rewrite <- Em, length_combine. reflexivity.
  - intros Hs. rewrite Hs in Em. cbn in Em. now injection Em as <- <-.
Qed.

End Backbone.

(** ** The claims on concrete data *)

Local Abbreviation demo_self := (SparseCNN_init Demo.fresh Demo.grid Demo.cfg).
Local Abbreviation demo_pad_batch := (pad_batch searchsorted_left).
Local Abbreviation demo_to_global :=
  (to_global searchsorted_left Z.add Z.mul Demo.of_int).
Local Abbreviation demo_Module_forward :=
  (Module_forward Demo.relu Demo.conv_features Demo.conv_features
                  Demo.conv_indices Demo.conv_shape Demo.batchnorm_features).
Local Abbreviation demo_forward :=
  (forward searchsorted_left Z.add Z.mul Demo.of_int Demo.relu
           Demo.conv_features Demo.conv_features Demo.conv_indices
           Demo.conv_shape Demo.batchnorm_features).

Example compute_pad_amounts_run :
  compute_pad_amounts searchsorted_left [0; 0; 0; 1] 2 = Ok ([3; 1], [0; 2]).
Proof. reflexivity. Qed.

Example pad_batch_run :
  demo_pad_batch [10; 11; 12; 13] [0; 0; 0; 1] 2 Demo.gen
  = Ok ([[10; 11; 12]; [13; 13; 13]], advance 2 Demo.gen).
Proof. reflexivity. Qed.

Example to_global_run :
  demo_to_global demo_self 2 (Demo.volume 2) Demo.gen
  = Ok (([[[20; -30; -3]; [0; -40; 17]]; [[40; -10; 37]; [40; -10; 37]]],
         [[[1; 2; 3; 4]; [5; 6; 7; 8]]; [[9; 10; 11; 12]; [9; 10; 11; 12]]]),
        advance 2 Demo.gen).
Proof. reflexivity. Qed.

Example VoxelFeatureExtractor_run :
  VoxelFeatureExtractor_forward Z.div Demo.fsum Demo.of_int Demo.points [2; 1]
  = Ok [[4; 6]; [3; 5]].
Proof. reflexivity. Qed.

Lemma searchsorted_left_shape : searchsorted_shape searchsorted_left.
Proof. intros a v. apply length_map. Qed.

Lemma searchsorted_left_contract : searchsorted_contract searchsorted_left.
Proof. intros a v _. reflexivity. Qed.

Lemma to_global_metric_witness :
  Forall (fun row => length row = 4%nat) (indices (Demo.volume 2)) /\
  demo_to_global demo_self 2 (Demo.volume 2) =
    (xyz <- demo_pad_batch [[20; -30; -3]; [0; -40; 17]; [40; -10; 37]] [0; 0; 1] 2 ;;
     feature <- demo_pad_batch Demo.feats [0; 0; 1] 2 ;;
     ret (xyz, feature)).
Proof.
  assert (Hrows : Forall (fun row => length row = 4%nat) (indices (Demo.volume 2)))
    by repeat constructor.
  split; [exact Hrows|].
  pose proof (@to_global_metric searchsorted_left Z Z.add Z.mul Demo.of_int
                (list Z) Demo.fresh Demo.grid Demo.cfg 2 (Demo.volume 2)
                5 5 10 0 (-40) (-3) [70; 40; 1] eq_refl eq_refl Hrows) as H.
  cbv zeta in H. exact (proj1 H).
Defined.

Lemma pad_batch_pads_every_batch_witness :
  exists res g',
    demo_pad_batch [10; 11; 12] [0; 0; 1] 2 Demo.gen = Ok (res, g') /\
    length res = 2%nat /\
    firstn 2 (nth 0 res []) = [10; 11] /\
    firstn 1 (nth 1 res []) = [12] /\
    length (nth 1 res []) = 2%nat.
Proof.
  assert (Hs : Sorted Z.le [0; 0; 1]) by (repeat constructor; lia).
  assert (Hr : Forall (fun y => 0 <= y < 2) [0; 0; 1]) by (repeat constructor; lia).
  assert (Hall : forall b, 0 <= b < 2 -> In b [0; 0; 1]).
  { intros b Hb. assert (E : b = 0 \/ b = 1) by lia.
    destruct E as [->| ->]; simpl; auto. }
  destruct (@pad_batch_pads_every_batch searchsorted_left Z [10; 11; 12] [0; 0; 1]
              2 Demo.gen searchsorted_left_contract
              (conj eq_refl eq_refl) eq_refl Hs Hr Hall)
    as (res & g' & m & Hrun & _ & _ & Hin & Hle & Hlen & Hslices).
  change (In m [2; 1]) in Hin. apply Forall_inv in Hle. change (2 <= m) in Hle.
  assert (Em : m = 2) by (destruct Hin as [E|[E|[]]]; lia). subst m.
  exists res, g'. split; [exact Hrun|]. split; [exact Hlen|].
  pose proof (Hslices 0 ltac:(lia)) as (_ & H0 & _).
  pose proof (Hslices 1 ltac:(lia)) as (H1l & H1 & _).
  repeat split; assumption.
Defined.

Lemma pad_batch_precondition_witness :
  (Sorted Z.le [0; 0; 1] /\ forall b, 0 <= b < 2 -> In b [0; 0; 1]) /\
  (forall g, demo_pad_batch [10; 11; 12] [0; 0; 0] 2 g = Err EmptyRange).
Proof.
  split.
  - apply (proj1 (@pad_batch_precondition searchsorted_left Z [10; 11; 12]
                    [0; 0; 1] 2 eq_refl)).
    + exact searchsorted_left_shape.
    + exists Demo.gen. eexists. eexists. vm_compute. reflexivity.
    + exists [2; 1], [0; 1], [[0; 0]; [1]].
      split; [reflexivity|]. split; [reflexivity|].
      intros [|[|[|k]]] c E; simpl in E; try discriminate;
        injection E as <-; repeat constructor.
  - apply (proj2 (@pad_batch_precondition searchsorted_left Z [10; 11; 12]
                    [0; 0; 0] 2 eq_refl)).
    + exact searchsorted_left_contract.
    + reflexivity.
    + reflexivity.
    + repeat constructor; lia.
    + repeat constructor; lia.
    + exists 1. split; [lia|]. simpl. intros [H|[H|[H|[]]]]; discriminate H.
Defined.

(** C2, as stated, fails: a sorted batch index in which batch 1 has no
    row, and one that holds an id outside [0, batch_size). *)
Lemma pad_batch_sorted_counterexample :
  Sorted Z.le [0; 0; 0] /\
  demo_pad_batch [10; 11; 12] [0; 0; 0] 2 Demo.gen = Err EmptyRange /\
  Sorted Z.le [0; 1; 2] /\
  demo_pad_batch [10; 11; 12] [0; 1; 2] 2 Demo.gen = Err SplitSizes.
Proof.
  split; [repeat constructor; lia|]. split; [reflexivity|].
  split; [repeat constructor; lia|]. reflexivity.
Qed.

Lemma forward_volumes_witness :
  exists vols x4,
    demo_forward demo_self Demo.feats Demo.coords 1 Demo.gen
      = Ok ((vols, x4), Demo.gen) /\
    length vols = 4%nat.
Proof.
  destruct (@forward_volumes searchsorted_left Z Z.add Z.mul Demo.of_int Demo.relu
              (list Z) Demo.fresh Demo.conv_features Demo.conv_features
              Demo.conv_indices Demo.conv_shape Demo.batchnorm_features
              Demo.grid Demo.cfg Demo.feats Demo.coords 1 Demo.gen
              1 2 4 8 [] eq_refl)
    as (x1 & x2 & x3 & x4 & H1 & H2 & H3 & H4 & _ & Hsingle & _).
  vm_compute in H1. injection H1 as <-.
  vm_compute in H2. injection H2 as <-.
  vm_compute in H3. injection H3 as <-.
  specialize (Hsingle 5 5 10 0 (-40) (-3) [70; 40; 1] eq_refl eq_refl eq_refl).
  eexists. exists x4. split.
  - apply Hsingle. repeat constructor.
  - reflexivity.
Defined.

(** C3, as stated, fails on an input of batch size 2 whose voxels all lie
    in batch 0: the first conversion raises.  The block-4 output is
    strided by 16 along Z. *)
Lemma forward_counterexample :
  demo_forward demo_self Demo.feats Demo.coords0 2 Demo.gen = Err EmptyRange /\
  total_stride (SparseSequential [block1 demo_self; block2 demo_self;
                                  block3 demo_self; block4 demo_self])
    = [16; 8; 8].
Proof. split; vm_compute; reflexivity. Qed.

Lemma VoxelFeatureExtractor_mean_witness :
  exists out,
    VoxelFeatureExtractor_forward Z.div Demo.fsum Demo.of_int Demo.points [2; 1]
      = Ok out /\
    length out = 2%nat /\
    nth 0 (nth 0 out []) 0 = (2 + (6 + 0)) / 2 /\
    nth 1 (nth 1 out []) 0 = (5 + (0 + 0)) / 1.
Proof.
  destruct (@VoxelFeatureExtractor_mean Z Z.div Demo.fsum Demo.of_int Demo.points
              [2; 1] 2 2 2 eq_refl)
    as (out & Hout & Hlen & _ & Hmean).
  - split; [reflexivity|]. repeat constructor.
  - reflexivity.
  - repeat constructor.
  - exists out. split; [exact Hout|]. split; [exact Hlen|]. split.
    + exact (Hmean 0%nat 0%nat ltac:(repeat constructor) ltac:(repeat constructor)).
    + exact (Hmean 1%nat 1%nat ltac:(repeat constructor) ltac:(repeat constructor)).
Defined.

Lemma subm_layers_preserve_sites_witness :
  exists y,
    demo_Module_forward
      (SparseSequential
         (firstn 2 [ make_subm_layer Demo.fresh 4 16 [Int 3] (subm "subm0");
                     make_subm_layer Demo.fresh 16 16 [Int 3] (subm "subm0") ]))
      (Demo.volume 2) = Ok y /\
    indices y = indices (Demo.volume 2).
Proof.
  refine (proj2 (@subm_layers_preserve_sites Z Demo.relu (list Z) Demo.fresh
                   Demo.conv_features Demo.conv_features Demo.conv_indices
                   Demo.conv_shape Demo.batchnorm_features _ (Demo.volume 2) _)
                2%nat).
  repeat constructor; do 4 eexists; reflexivity.
Defined.

(** ** The further properties on data *)

Local Abbreviation demo_init_weights :=
  (init_weights Demo.constant_ Demo.kaiming_normal_).

(** A network with one nn.Conv2d, whose weight [init_weights] redraws. *)
Local Abbreviation demo_conv2d_network :=
  ({| cfg := Demo.cfg;
      grid_shape := Demo.grid;
      base_voxel_size := [5; 5; 10];
      voxel_offset := [0; -40; -3];
      block1 := SparseSequential
                  [Conv2d {| data := [7; 7]; requires_grad := false |}
                          (Some {| data := [9]; requires_grad := true |});
                   build_batchnorm Demo.fresh 2];
      block2 := ReLU;
      block3 := ReLU;
      block4 := ReLU |} : SparseCNN Z (list Z)).


Lemma random_choice_rows_witness :
  exists rows,
    random_choice [10; 11; 12] 2 Demo.gen = Ok (rows, advance 2 Demo.gen) /\
    length rows = 2%nat /\
    Forall (fun r => In r [10; 11; 12]) rows.
Proof. exact (@random_choice_rows Z [10; 11; 12] 2 Demo.gen ltac:(lia)). Defined.

Lemma compute_pad_amounts_levels_witness :
  exists batch_count pad m,
    compute_pad_amounts searchsorted_left [0; 0; 0; 1] 2 = Ok (batch_count, pad) /\
    length batch_count = 2%nat /\
    length pad = 2%nat /\
    In m batch_count /\
    Forall2 (fun c p => 0 <= p /\ c + p = m) batch_count pad /\
    In 0 pad.
Proof.
  exact (@compute_pad_amounts_levels searchsorted_left [0; 0; 0; 1] 2
           searchsorted_left_shape ltac:(lia)).
Defined.

Lemma pad_batch_no_batches_witness :
  (compute_pad_amounts searchsorted_left [0; 0; 1] 0 = Err EmptyReduction /\
   demo_pad_batch [10; 11; 12] [0; 0; 1] 0 Demo.gen = Err EmptyReduction) /\
  (compute_pad_amounts searchsorted_left [0; 0; 1] (-2) = Err InvalidRange /\
   demo_pad_batch [10; 11; 12] [0; 0; 1] (-2) Demo.gen = Err InvalidRange).
Proof.
  split.
  - exact (@pad_batch_no_batches searchsorted_left Z [10; 11; 12] [0; 0; 1] 0
             Demo.gen searchsorted_left_shape ltac:(lia)).
  - exact (@pad_batch_no_batches searchsorted_left Z [10; 11; 12] [0; 0; 1] (-2)
             Demo.gen searchsorted_left_shape ltac:(lia)).
Defined.


Lemma pad_batch_unpad_witness :
  exists batch_count pad,
    compute_pad_amounts searchsorted_left [0; 0; 0; 1] 2 = Ok (batch_count, pad) /\
    length [[10; 11; 12]; [13; 13; 13]] = length batch_count /\
    (exists k, Forall (fun slice => length slice = k) [[10; 11; 12]; [13; 13; 13]]) /\
    Forall (fun slice => Forall (fun r => In r [10; 11; 12; 13]) slice)
           [[10; 11; 12]; [13; 13; 13]] /\
    concat (map (fun '(n, slice) => firstn n slice)
                (combine (map Z.to_nat batch_count) [[10; 11; 12]; [13; 13; 13]]))
    = [10; 11; 12; 13].
Proof.
  exact (@pad_batch_unpad searchsorted_left Z [10; 11; 12; 13] [0; 0; 0; 1] 2
           Demo.gen (advance 2 Demo.gen) [[10; 11; 12]; [13; 13; 13]]
           ltac:(lia) eq_refl).
Defined.

Lemma pad_batch_balanced_witness :
  demo_pad_batch [10; 11; 12; 13] [0; 0; 1; 1] 2 Demo.gen
  = Ok ([[10; 11]; [12; 13]], Demo.gen).
Proof.
  apply (@pad_batch_balanced searchsorted_left Z [10; 11; 12; 13] [0; 0; 1; 1] 2 2
           Demo.gen searchsorted_left_contract (conj eq_refl eq_refl) eq_refl).
  - repeat constructor; lia.
  - repeat constructor; lia.
  - lia.
  - intros i Hi. assert (E : i = 0 \/ i = 1) by lia.
    destruct E as [->| ->]; reflexivity.
Defined.

Lemma pad_batch_one_draw_per_pad_witness :
  (length [10; 11; 12; 13] <= length (concat [[10; 11; 12]; [13; 13; 13]]))%nat /\
  advance 2 Demo.gen = advance 2 Demo.gen.
Proof.
  exact (@pad_batch_one_draw_per_pad searchsorted_left Z [10; 11; 12; 13]
           [0; 0; 0; 1] 2 Demo.gen (advance 2 Demo.gen)
           [[10; 11; 12]; [13; 13; 13]] ltac:(lia) eq_refl).
Defined.

Lemma to_global_aligned_witness :
  exists xyz feature g' max_count,
    demo_to_global demo_self 2 (Demo.volume 2) Demo.gen = Ok ((xyz, feature), g') /\
    length xyz = 2%nat /\
    length feature = 2%nat /\
    length (nth 0 xyz []) = Z.to_nat max_count /\
    length (nth 1 feature []) = Z.to_nat max_count /\
    firstn 2 (nth 0 xyz []) = [[20; -30; -3]; [0; -40; 17]] /\
    firstn 1 (nth 1 xyz []) = [[40; -10; 37]] /\
    firstn 2 (nth 0 feature []) = [[1; 2; 3; 4]; [5; 6; 7; 8]] /\
    firstn 1 (nth 1 feature []) = [[9; 10; 11; 12]].
Proof.
  assert (Hs : Sorted Z.le [0; 0; 1]) by (repeat constructor; lia).
  assert (Hr : Forall (fun y => 0 <= y < 2) [0; 0; 1]) by (repeat constructor; lia).
  assert (Hall : forall b, 0 <= b < 2 -> In b [0; 0; 1]).
  { intros b Hb. assert (E : b = 0 \/ b = 1) by lia.
    destruct E as [->| ->]; simpl; auto. }
  assert (Hrows : Forall (fun row => length row = 4%nat) (indices (Demo.volume 2)))
    by repeat constructor.
  destruct (@to_global_aligned searchsorted_left Z Z.add Z.mul Demo.of_int (list Z)
              demo_self 2 (Demo.volume 2) 5 5 10 0 (-40) (-3) Demo.gen
              searchsorted_left_contract eq_refl eq_refl Hrows eq_refl
              (conj eq_refl eq_refl) Hs Hr Hall)
    as (xyz & feature & g' & m & Hrun & Hlx & Hlf & Hslices).
  exists xyz, feature, g', m.
  assert (H0 : 0 <= 0 < 2) by lia. assert (H1 : 0 <= 1 < 2) by lia.
  destruct (Hslices 0 H0) as (L0 & _ & X0 & F0).
  destruct (Hslices 1 H1) as (_ & L1 & X1 & F1).
  repeat split; assumption.
Defined.

Lemma VoxelFeatureExtractor_broadcast_witness :
  VoxelFeatureExtractor_forward Z.div Demo.fsum Demo.of_int Demo.points [2; 1; 1]
  = Err ShapeMismatch /\
  VoxelFeatureExtractor_forward Z.div Demo.fsum Demo.of_int Demo.points [2]
  = Ok [[4; 6]; [1; 2]].
Proof.
  split.
  - apply (proj1 (@VoxelFeatureExtractor_broadcast Z Z.div Demo.fsum Demo.of_int
                    Demo.points [2; 1; 1] 2 2 2 eq_refl eq_refl));
      discriminate.
  - exact (proj1 (proj2 (@VoxelFeatureExtractor_broadcast Z Z.div Demo.fsum
                           Demo.of_int Demo.points [2] 2 2 2 eq_refl eq_refl))
                 2 eq_refl).
Defined.


Lemma init_weights_keeps_flags_witness :
  exists self' g',
    demo_init_weights demo_conv2d_network Demo.gen = Ok (self', g') /\
    g' = advance 2 Demo.gen /\
    length (SparseCNN_modules self') = 6%nat /\
    map (@requires_grad (list Z))
        (flat_map (@parameters (list Z))
                  [block1 self'; block2 self'; block3 self'; block4 self'])
    = [false; true; true; true].
Proof.
  destruct (demo_init_weights demo_conv2d_network Demo.gen)
    as [[self' g']|] eqn:E; [|discriminate E].
  exists self', g'. split; [reflexivity|].
  destruct (@init_weights_keeps_flags Z (list Z) Demo.constant_ Demo.kaiming_normal_
              demo_conv2d_network self' Demo.gen g' E)
    as (_ & _ & _ & _ & Hm & Hp).
  split; [now injection E as _ <-|]. split; assumption.
Defined.

Lemma to_global_draws_twice_witness :
  exists extra : nat,
    length (concat [[[20; -30; -3]; [0; -40; 17]]; [[40; -10; 37]; [40; -10; 37]]])
    = (3 + extra)%nat /\
    advance 2 Demo.gen = advance (N.of_nat (2 * extra)) Demo.gen.
Proof.
  destruct (@to_global_draws_twice searchsorted_left Z Z.add Z.mul Demo.of_int
              (list Z) demo_self 2 (Demo.volume 2) Demo.gen (advance 2 Demo.gen)
              [[[20; -30; -3]; [0; -40; 17]]; [[40; -10; 37]; [40; -10; 37]]]
              [[[1; 2; 3; 4]; [5; 6; 7; 8]]; [[9; 10; 11; 12]; [9; 10; 11; 12]]]
              ltac:(discriminate) eq_refl)
    as (extra & Hx & _ & Hg & _).
  exists extra. split; assumption.
Defined.



Lemma forward_zip_witness :
  exists x x4 g',
    demo_forward demo_self Demo.feats Demo.coords 2 Demo.gen = Ok ((x, x4), g') /\
    length x = 4%nat.
Proof.
  destruct (demo_forward demo_self Demo.feats Demo.coords 2 Demo.gen)
    as [[[x x4] g']|] eqn:E; [|vm_compute in E; discriminate E].
  exists x, x4, g'. split; [reflexivity|].
  exact (proj1 (@forward_zip searchsorted_left Z Z.add Z.mul Demo.of_int Demo.relu
                  (list Z) Demo.conv_features Demo.conv_features Demo.conv_indices
                  Demo.conv_shape Demo.batchnorm_features demo_self Demo.feats
                  Demo.coords 2 Demo.gen g' x x4 E)).
Defined.
